(** * project-scheduler.py: PERT durations, the scheduling LP and its analysis

    A shallow embedding of [optimize_project_schedule] and
    [analyze_project_schedule].

    Conventions.
    - Hours, start times and the objective are Python floats; they are
      idealised here as rationals ([Q]), compared with [==], [<=].
    - Strings are ASCII texts.
    - The task table is a [DataFrame]: its rows and, when the column is
      present, the ['pert_duration'] column.  The column is assigned from the
      rows three lines into the function, so every later read of
      [task['pert_duration']] is the function [pert_duration] of the row.
    - PuLP's solver, PuLP's [LpStatus] table and pandas' [sort_values] are
      libraries, not code of this program: they are the variables of the
      section [Scheduler], and what is assumed of them is written out as the
      predicates [pulp_contract] and [sort_contract] of one call.
    - [solve] stands for a call of [prob.solve()] that runs to a status.  A
      call in which PuLP itself raises (two ids that PuLP turns into one
      variable name, estimates that are not numbers) has no counterpart
      here; what is proved of returned results is stated for a call that
      returned one. *)

From Stdlib Require Import List String Ascii Bool ZArith QArith Qminmax Lqa Lia.
From Stdlib Require Import Permutation Sorted.
Import ListNotations.
Open Scope string_scope.
Open Scope list_scope.
Open Scope Q_scope.

(** ** Python string operations used on the predecessor field *)

(** [str.isspace] on an ASCII character: TAB..CR, FS..US and the space. *)
Definition is_space (c : ascii) : bool :=
  let n := nat_of_ascii c in
  ((9 <=? n) && (n <=? 13) || (28 <=? n) && (n <=? 31) || (n =? 32))%nat.

Fixpoint lstrip (s : string) : string :=
  match s with
  | EmptyString => EmptyString
  | String c s' => if is_space c then lstrip s' else s
  end.

Fixpoint rstrip (s : string) : string :=
  match s with
  | EmptyString => EmptyString
  | String c s' =>
      match rstrip s' with
      | EmptyString => if is_space c then EmptyString else String c EmptyString
      | r => String c r
      end
  end.

(** [s.strip()] *)
Definition strip (s : string) : string := rstrip (lstrip s).

(** [s.split(',')]: the empty string splits into one empty piece. *)
Fixpoint split_comma (s : string) : list string :=
  match s with
  | EmptyString => [EmptyString]
  | String c s' =>
      if Ascii.eqb c ","%char then EmptyString :: split_comma s'
      else match split_comma s' with
           | [] => [String c EmptyString]
           | piece :: pieces => String c piece :: pieces
           end
  end.

(** Truth value of a Python string. *)
Definition truthy_str (s : string) : bool :=
  match s with EmptyString => false | _ => true end.

(** ** The task table *)

(** A cell of the [predecessorTaskIDs] column: missing ([NaN]/[None]), a
    string, or another scalar, of which the code uses its truth value and
    its [str()]. *)
Inductive cell : Type :=
| Missing
| Str (s : string)
| Scalar (truth : bool) (text : string).

Record task : Type := mkTask {
  taskID : string;
  predecessorTaskIDs : cell;
  bestCaseHours : Q;
  expectedHours : Q;
  worstCaseHours : Q
}.

Record DataFrame : Type := mkFrame {
  rows : list task;
  pert_column : option (list Q)
}.

(** Lines 14-16, one row of the column. *)
Definition pert_duration (t : task) : Q :=
  (bestCaseHours t + 4 * expectedHours t + worstCaseHours t) / 6.

(** Lines 7 and 14-16: [tasks_df['taskID'].astype(str)] leaves a string
    column as it is; [tasks_df['pert_duration'] = ...] adds or overwrites
    the column of the caller's frame. *)
Definition assign_pert (tasks_df : DataFrame) : DataFrame :=
  {| rows := rows tasks_df;
     pert_column := Some (map pert_duration (rows tasks_df)) |}.

(** Lines 30-34: the list of predecessor references of a row. *)
Definition pred_list (t : task) : list string :=
  match predecessorTaskIDs t with
  | Missing => []
  | Str s =>
      if truthy_str s
      then filter truthy_str (map strip (split_comma s))
      else []
  | Scalar truth text => if truth then [strip text] else []
  end.

(** ** Exceptions *)

Inductive exn : Type :=
| ValueError (msg : string)
| IndexError
| KeyError (key : string).

(** [tasks_df.loc[tasks_df.taskID == key]] *)
Definition loc_taskID (tasks : list task) (key : string) : list task :=
  filter (fun r => String.eqb (taskID r) key) tasks.

(** [.iloc[0]] *)
Definition iloc0 {A : Type} (l : list A) : exn + A :=
  match l with
  | [] => inl IndexError
  | x :: _ => inr x
  end.

(** ** The linear program *)

(** The two shapes of constraint the function adds:
    [start_times[t] >= start_times[p] + d] and
    [total_duration >= start_times[t] + d]. *)
Inductive LpConstraint : Type :=
| StartAfter (t p : string) (d : Q)
| Completion (t : string) (d : Q).

(** The variables [start_times[v]], each with [lowBound=0]; the variable
    [total_duration], [lowBound=0], is the objective to minimise. *)
Record LpProblem : Type := mkProblem {
  lp_variables : list string;
  lp_constraints : list LpConstraint
}.

(** What [prob.solve()] leaves behind: the status and the values that
    [pulp.value] reads. *)
Record LpSolution : Type := mkSolution {
  sol_status : Z;
  start_value : string -> Q;
  total_value : Q
}.

Definition holds (s : string -> Q) (T : Q) (c : LpConstraint) : Prop :=
  match c with
  | StartAfter t p d => s p + d <= s t
  | Completion t d => s t + d <= T
  end.

Definition lp_feasible (p : LpProblem) (s : string -> Q) (T : Q) : Prop :=
  (forall v, In v (lp_variables p) -> 0 <= s v) /\
  0 <= T /\
  Forall (holds s T) (lp_constraints p).

(** The contract of one call of the solver: status 1 comes with a feasible
    point of least objective, and a feasible problem (the objective is
    bounded below by its [lowBound]) is solved with status 1. *)
Definition pulp_contract (p : LpProblem) (sol : LpSolution) : Prop :=
  (sol_status sol = 1%Z ->
     lp_feasible p (start_value sol) (total_value sol) /\
     forall s T, lp_feasible p s T -> total_value sol <= T) /\
  ((exists s T, lp_feasible p s T) -> sol_status sol = 1%Z).

(** ** Lines 22-44: building the constraints *)

(** The state threaded through the loops: the constraints added to [prob]
    so far and the lines printed so far. *)
Definition build_state : Type := (list LpConstraint * list string)%type.

Definition warning (pred task_id : string) : string :=
  ("Warning: Predecessor " ++ pred ++ " not found for task " ++ task_id)%string.

(** Lines 37-42, one predecessor reference. *)
Definition add_predecessor (tasks : list task) (task_id : string)
    (st : build_state) (pred : string) : build_state :=
  match iloc0 (loc_taskID tasks pred) with
  | inr row => (fst st ++ [StartAfter task_id pred (pert_duration row)], snd st)
  | inl _ => (fst st, snd st ++ [warning pred task_id])
  end.

(** Lines 24-44, one row. *)
Definition add_task (tasks : list task) (st : build_state) (t : task)
    : build_state :=
  let st' := fold_left (add_predecessor tasks (taskID t)) (pred_list t) st in
  (fst st' ++ [Completion (taskID t) (pert_duration t)], snd st').

Definition build_loop (tasks : list task) : build_state :=
  fold_left (add_task tasks) tasks ([], []).

Definition build_problem (tasks : list task) : LpProblem :=
  {| lp_variables := map taskID tasks;
     lp_constraints := fst (build_loop tasks) |}.

(** ** Lines 52-78: the results *)

Record task_result : Type := mkResult {
  res_taskID : string;
  start_time : Q;
  res_pert_duration : Q;
  best_case : Q;
  expected_case : Q;
  worst_case : Q;
  end_time : Q
}.

(** [d[k] = v] on a dict kept in insertion order. *)
Fixpoint dict_set (d : list (string * Q)) (k : string) (v : Q)
    : list (string * Q) :=
  match d with
  | [] => [(k, v)]
  | (k', v') :: d' =>
      if String.eqb k' k then (k, v) :: d' else (k', v') :: dict_set d' k v
  end.

Fixpoint dict_get (d : list (string * Q)) (k : string) : option Q :=
  match d with
  | [] => None
  | (k', v') :: d' => if String.eqb k' k then Some v' else dict_get d' k
  end.

Record results : Type := mkResults {
  status : string;
  total_project_duration : Q;
  schedule : list (string * Q);
  task_details : list task_result
}.

(** Lines 61-76, one pass of the loop. *)
Definition extract_task (tasks : list task) (sol : LpSolution)
    (acc : exn + results) (task_id : string) : exn + results :=
  match acc with
  | inl e => inl e
  | inr res =>
      let start := start_value sol task_id in
      match iloc0 (loc_taskID tasks task_id) with
      | inl e => inl e
      | inr task_row =>
          let task_result :=
            {| res_taskID := task_id;
               start_time := start;
               res_pert_duration := pert_duration task_row;
               best_case := bestCaseHours task_row;
               expected_case := expectedHours task_row;
               worst_case := worstCaseHours task_row;
               end_time := start + pert_duration task_row |} in
          inr {| status := status res;
                 total_project_duration := total_project_duration res;
                 schedule := dict_set (schedule res) task_id start;
                 task_details := task_details res ++ [task_result] |}
      end
  end.

(** The analyzed table: the details and the added [float_time] column. *)
Record schedule_row : Type := mkRow {
  details : task_result;
  float_time : Q
}.

Record analysis : Type := mkAnalysis {
  an_total_project_duration : Q;
  an_schedule : list schedule_row;
  optimization_status : string
}.

(** Line 91: the frame with its [float_time] column, [top] being the
    largest end time. *)
Definition with_float (top : Q) (ds : list task_result) : list schedule_row :=
  map (fun r => {| details := r; float_time := top - end_time r |}) ds.

(** [Series.max()] of a non-empty column. *)
Definition series_max (x : Q) (xs : list Q) : Q := fold_left Qmax xs x.

Section Scheduler.

(** [pulp.LpStatus], [prob.solve()] and
    [DataFrame.sort_values('start_time')]. *)
Variable LpStatus : Z -> string.
Variable solve : LpProblem -> LpSolution.
Variable sort_values : list schedule_row -> list schedule_row.

(** The function returns the caller's frame as the call leaves it, the
    lines printed, and the result or the exception raised. *)
Definition optimize_project_schedule (tasks_df : DataFrame)
    : DataFrame * list string * (exn + results) :=
  let tasks_df := assign_pert tasks_df in
  let tasks := rows tasks_df in
  let printed := snd (build_loop tasks) in
  let sol := solve (build_problem tasks) in
  if negb (sol_status sol =? 1)%Z then
    (tasks_df, printed,
     inl (ValueError ("Could not find optimal solution. Status: "
                      ++ LpStatus (sol_status sol))%string))
  else
    let results0 :=
      {| status := LpStatus (sol_status sol);
         total_project_duration := total_value sol;
         schedule := [];
         task_details := [] |} in
    (tasks_df, printed,
     fold_left (extract_task tasks sol) (map taskID tasks) (inr results0)).

(** Lines 88-95 on the details of a solved schedule; with no rows the
    frame has no ['end_time'] column. *)
Definition analyze_details (res : results) : exn + analysis :=
  match task_details res with
  | [] => inl (KeyError "end_time")
  | d :: ds =>
      let top := series_max (end_time d) (map end_time ds) in
      let schedule_df := with_float top (d :: ds) in
      inr {| an_total_project_duration := total_project_duration res;
             an_schedule := sort_values schedule_df;
             optimization_status := status res |}
  end.

Definition analyze_project_schedule (tasks_df : DataFrame)
    : DataFrame * list string * (exn + analysis) :=
  match optimize_project_schedule tasks_df with
  | (df, printed, inl e) => (df, printed, inl e)
  | (df, printed, inr res) => (df, printed, analyze_details res)
  end.

End Scheduler.

(** ** What is assumed of [sort_values] *)

(** Order of two rows of the analyzed table by ['start_time']. *)
Definition by_start (a b : schedule_row) : Prop :=
  start_time (details a) <= start_time (details b).

(** What is assumed of [sort_values('start_time')] with its default
    algorithm: the rows come back rearranged into ascending order.  The
    default algorithm is not a stable one, so nothing is assumed about
    rows of equal start time. *)
Definition sort_contract (sort_values : list schedule_row -> list schedule_row)
    : Prop :=
  forall l, Permutation l (sort_values l) /\
            StronglySorted by_start (sort_values l).

(** ** The loops in closed form *)

(** The constraints and the warnings one row contributes. *)
Definition pred_constraint (tasks : list task) (task_id pred : string)
    : list LpConstraint :=
  match iloc0 (loc_taskID tasks pred) with
  | inr row => [StartAfter task_id pred (pert_duration row)]
  | inl _ => []
  end.

Definition pred_warning (tasks : list task) (task_id pred : string)
    : list string :=
  match iloc0 (loc_taskID tasks pred) with
  | inr _ => []
  | inl _ => [warning pred task_id]
  end.

Definition task_constraints (tasks : list task) (t : task)
    : list LpConstraint :=
  flat_map (pred_constraint tasks (taskID t)) (pred_list t)
  ++ [Completion (taskID t) (pert_duration t)].

Definition task_warnings (tasks : list task) (t : task) : list string :=
  flat_map (pred_warning tasks (taskID t)) (pred_list t).

(** The entry of [task_details] written for a row: the values are read from
    the first row of the table that has the row's id. *)
Definition detail_of (tasks : list task) (sol : LpSolution) (t : task)
    : task_result :=
  let task_row := match iloc0 (loc_taskID tasks (taskID t)) with
                  | inr r => r
                  | inl _ => t
                  end in
  {| res_taskID := taskID t;
     start_time := start_value sol (taskID t);
     res_pert_duration := pert_duration task_row;
     best_case := bestCaseHours task_row;
     expected_case := expectedHours task_row;
     worst_case := worstCaseHours task_row;
     end_time := start_value sol (taskID t) + pert_duration task_row |}.

Definition schedule_of (sol : LpSolution) (ids : list string)
    (d : list (string * Q)) : list (string * Q) :=
  fold_left (fun d id => dict_set d id (start_value sol id)) ids d.

(** Feasibility of the problem, read on the task table. *)
Definition schedule_feasible (tasks : list task) (s : string -> Q) (T : Q)
    : Prop :=
  (forall t, In t tasks -> 0 <= s (taskID t)) /\
  0 <= T /\
  (forall t pred row,
      In t tasks -> In pred (pred_list t) ->
      iloc0 (loc_taskID tasks pred) = inr row ->
      s (taskID row) + pert_duration row <= s (taskID t)) /\
  (forall t, In t tasks -> s (taskID t) + pert_duration t <= T).

(** ** Dependencies between the rows of a table *)

(** [depends_on tasks t p]: the row [t] names, among its predecessors, a
    reference that resolves to the row [p]. *)
Definition depends_on (tasks : list task) (t p : task) : Prop :=
  In t tasks /\
  exists pred, In pred (pred_list t) /\
               iloc0 (loc_taskID tasks pred) = inr p.

(** [dependency_path tasks p t w]: a path of dependencies leads from [p] to
    [t], and [w] is the sum of the PERT durations of its tasks, [t] left
    out. *)
Inductive dependency_path (tasks : list task) : task -> task -> Q -> Prop :=
| path_edge p t :
    depends_on tasks t p -> dependency_path tasks p t (pert_duration p)
| path_step p q t w :
    depends_on tasks q p -> dependency_path tasks q t w ->
    dependency_path tasks p t (pert_duration p + w).

(** The dependencies are acyclic when the ids can be ranked so that every
    resolved predecessor has a smaller rank than the task naming it. *)
Definition acyclic (tasks : list task) : Prop :=
  exists rank : string -> nat,
    forall t pred p,
      In t tasks -> In pred (pred_list t) ->
      iloc0 (loc_taskID tasks pred) = inr p ->
      (rank (taskID p) < rank (taskID t))%nat.

(** A schedule for a ranked table: each task waits [rank] times the
    longest duration. *)
Definition longest (tasks : list task) : Q :=
  series_max 0 (map pert_duration tasks).

Definition ranked_start (tasks : list task) (rank : string -> nat)
    (v : string) : Q :=
  inject_Z (Z.of_nat (rank v)) * longest tasks.

Definition ranked_total (tasks : list task) (rank : string -> nat) : Q :=
  series_max 0 (map (fun t => ranked_start tasks rank (taskID t)
                              + pert_duration t) tasks).

(** Does a reference name a row of the table? *)
Definition resolves (tasks : list task) (pred : string) : bool :=
  existsb (fun r => String.eqb (taskID r) pred) tasks.

Definition resolved_preds (tasks : list task) (t : task) : list string :=
  filter (resolves tasks) (pred_list t).

(** Two rows with the same id and the same three estimates. *)
Definition same_numbers (t t' : task) : Prop :=
  taskID t = taskID t' /\
  bestCaseHours t = bestCaseHours t' /\
  expectedHours t = expectedHours t' /\
  worstCaseHours t = worstCaseHours t'.

(** Two tables that differ at most in references that resolve in
    neither. *)
Definition same_apart_from_unresolved (tasks tasks' : list task) : Prop :=
  Forall2 (fun t t' => same_numbers t t' /\
                       resolved_preds tasks t = resolved_preds tasks' t')
          tasks tasks'.

(** ** Stand-ins for the libraries, to run the functions on examples *)

(** A solver outcome given by a table of start values. *)
Definition table_solution (st : Z) (starts : list (string * Q)) (T : Q)
    : LpSolution :=
  {| sol_status := st;
     start_value := fun v => match dict_get starts v with
                             | Some x => x
                             | None => 0
                             end;
     total_value := T |}.

(** PuLP's table of status names. *)
Definition pulp_LpStatus (st : Z) : string :=
  if (st =? 1)%Z then "Optimal"
  else if (st =? 0)%Z then "Not Solved"
  else if (st =? -1)%Z then "Infeasible"
  else if (st =? -2)%Z then "Unbounded"
  else "Undefined".

(** Insertion sorts on the ['start_time'] column, filled from the last row
    to the first.  [before a b] decides whether a new row [a] goes in front
    of a row [b] already placed. *)
Fixpoint insert_row (before : Q -> Q -> bool) (a : schedule_row)
    (l : list schedule_row) : list schedule_row :=
  match l with
  | [] => [a]
  | b :: l' =>
      if before (start_time (details a)) (start_time (details b))
      then a :: l
      else b :: insert_row before a l'
  end.

Definition insertion_sort (before : Q -> Q -> bool) (l : list schedule_row)
    : list schedule_row :=
  fold_right (insert_row before) [] l.

(** Ties keep their order. *)
Definition sort_ties_kept : list schedule_row -> list schedule_row :=
  insertion_sort Qle_bool.

(** ** Example tables and solver outcomes *)

Definition task_A : task := mkTask "A" Missing 1 2 3.
Definition task_B : task := mkTask "B" (Str "A") 2 4 6.
Definition task_C : task := mkTask "C" (Str "B") 1 1 1.
Definition task_D : task := mkTask "D" Missing 1 1 1.

(** The three-task chain A, B after A, C after B, and its earliest
    schedule. *)
Definition chain_frame : DataFrame := mkFrame [task_A; task_B; task_C] None.

Definition chain_solve (_ : LpProblem) : LpSolution :=
  table_solution 1 [("A", 0); ("B", 2); ("C", 6)] 7.

(** Two tasks without predecessors, both started at 0. *)
Definition tie_frame : DataFrame := mkFrame [task_A; task_D] None.

Definition tie_solve (_ : LpProblem) : LpSolution :=
  table_solution 1 [("A", 0); ("D", 0)] 2.




(** The solution of the problem without tasks. *)
Definition empty_solve (_ : LpProblem) : LpSolution := table_solution 1 [] 0.

(** A depends on B and B depends on A; the solver reports status -1. *)
Definition cycle_frame : DataFrame :=
  mkFrame [mkTask "A" (Str "B") 1 2 3; mkTask "B" (Str "A") 2 4 6] None.

Definition cycle_solve (_ : LpProblem) : LpSolution :=
  table_solution (-1) [] 0.

(** The same cycle with tasks that take no time. *)
Definition zero_cycle_frame : DataFrame :=
  mkFrame [mkTask "A" (Str "B") 0 0 0; mkTask "B" (Str "A") 0 0 0] None.

(** Task A names Z, which is no task; and the same table without the
    reference. *)
Definition dangling_frame : DataFrame :=
  mkFrame [mkTask "A" (Str "Z") 1 2 3] None.

Definition plain_frame : DataFrame := mkFrame [task_A] None.

Definition single_solve (_ : LpProblem) : LpSolution :=
  table_solution 1 [("A", 0)] 2.

(** ** The default sort of [sort_values]

    [sort_values('start_time')] orders the rows by
    [argsort(kind='quicksort')] of the column.  What follows is numpy's
    scalar routine for it ([aquicksort] of [npysort/quicksort.cpp]): an
    introsort on an array of row positions that partitions a range around
    the median of three while [pr - pl > 16], and finishes each range by
    insertion.  Positions are integers; the keys are never moved. *)






















(** ** Tactics for the examples *)

Ltac forall_inv :=
  repeat match goal with
         | H : Forall _ (_ :: _) |- _ => inversion H; clear H; subst
         | H : Forall _ [] |- _ => clear H
         end.

Ltac in_cases H :=
  simpl in H;
  repeat match type of H with
         | _ \/ _ => destruct H as [H|H]
         | False => destruct H
         end.


(** * Further definitions *)

(** ** Shapes of strings *)

Fixpoint has_comma (s : string) : bool :=
  match s with
  | EmptyString => false
  | String c s' => Ascii.eqb c ","%char || has_comma s'
  end.

Fixpoint all_space (s : string) : bool :=
  match s with
  | EmptyString => true
  | String c s' => is_space c && all_space s'
  end.

Definition starts_with_space (s : string) : bool :=
  match s with
  | EmptyString => false
  | String c _ => is_space c
  end.

Fixpoint ends_with_space (s : string) : bool :=
  match s with
  | EmptyString => false
  | String c EmptyString => is_space c
  | String _ s' => ends_with_space s'
  end.

(** A reference as the parser can produce it from a string cell: not
    empty, without comma, without white space at either end. *)
Definition clean_id (s : string) : Prop :=
  s <> EmptyString /\ has_comma s = false /\
  starts_with_space s = false /\ ends_with_space s = false.

(** A cell text made of white space and commas only. *)
Fixpoint blank_cell (s : string) : bool :=
  match s with
  | EmptyString => true
  | String c s' => (is_space c || Ascii.eqb c ","%char) && blank_cell s'
  end.

(** [piece] is [id] with white space around it. *)
Definition padded (piece id : string) : Prop :=
  exists l r, all_space l = true /\ all_space r = true /\
              piece = (l ++ id ++ r)%string.

(** ** Counting references *)

Definition unresolved_preds (tasks : list task) (t : task) : list string :=
  filter (fun r => negb (resolves tasks r)) (pred_list t).

Definition count_over (f : task -> list string) (tasks : list task) : nat :=
  list_sum (map (fun t => List.length (f t)) tasks).

(** ** Reading a result *)

(** [results['schedule'][task_id]], 0 standing for a missing key. *)
Definition scheduled_start (res : results) (task_id : string) : Q :=
  match dict_get (schedule res) task_id with
  | Some x => x
  | None => 0
  end.

(** The time at which a row is complete in a result. *)
Definition completion (res : results) (t : task) : Q :=
  scheduled_start res (taskID t) + pert_duration t.

(** ** Comparing tables *)

(** [tasks] has the rows of [tasks'] with at most the resolved references
    of [tasks']. *)
Definition fewer_dependencies (tasks tasks' : list task) : Prop :=
  Forall2 (fun t t' => same_numbers t t' /\
                       incl (resolved_preds tasks t) (resolved_preds tasks' t'))
          tasks tasks'.

(** ** Lines 103-122: loading the table *)

(** The exception [load_excel_data] raises. *)
Inductive load_exception : Type :=
| Exception (msg : string).

(** Line 111. *)
Definition required_columns : list string :=
  ["taskID"; "predecessorTaskIDs"; "bestCaseHours"; "expectedHours";
   "worstCaseHours"].

(** [col in df.columns] *)
Definition has_column (columns : list string) (col : string) : bool :=
  existsb (String.eqb col) columns.

Section Loader.

(** The frame pandas reads, with [df.columns],
    [df['taskID'] = df['taskID'].astype(str)] and [pd.read_excel], which
    returns the frame or raises an exception [e], given by [str(e)]. *)
Variable Sheet : Type.
Variable sheet_columns : Sheet -> list string.
Variable taskID_astype_str : Sheet -> Sheet.
Variable read_excel : string -> string + Sheet.

Definition load_excel_data (file_path : string) : load_exception + Sheet :=
  let wrap (msg : string) :=
    Exception ("Error loading Excel file: " ++ msg)%string in
  match read_excel file_path with
  | inl msg => inl (wrap msg)
  | inr df =>
      let missing_columns :=
        filter (fun col => negb (has_column (sheet_columns df) col))
               required_columns in
      match missing_columns with
      | _ :: _ =>
          inl (wrap ("Missing required columns: "
                     ++ String.concat ", " missing_columns)%string)
      | [] => inr (taskID_astype_str df)
      end
  end.

End Loader.

(** A reader that knows one file, for the examples: a sheet is its list of
    column names. *)
Definition one_file_reader (name : string) (columns : list string)
    (file_path : string) : string + list string :=
  if String.eqb file_path name then inr columns
  else inl ("No such file: " ++ file_path)%string.

(** A solver outcome for the chain and for the chain without the
    dependency of B on A. *)
Definition loose_solve (p : LpProblem) : LpSolution :=
  if (List.length (lp_constraints p) =? 4)%nat
  then table_solution 1 [("A", 0); ("B", 0); ("C", 4)] 5
  else table_solution 1 [("A", 0); ("B", 2); ("C", 6)] 7.

(** * Proofs *)

(** ** The loops in closed form *)

Lemma add_predecessor_fold tasks task_id preds st :
  fold_left (add_predecessor tasks task_id) preds st =
  (fst st ++ flat_map (pred_constraint tasks task_id) preds,
   snd st ++ flat_map (pred_warning tasks task_id) preds).
Proof.
  revert st; induction preds as [|r preds IH]; intros [cs out]; simpl.
  - now rewrite !app_nil_r.
  - rewrite IH. unfold add_predecessor, pred_constraint, pred_warning.
    destruct (iloc0 (loc_taskID tasks r)); simpl;
      now rewrite <- ?app_assoc, ?app_nil_r.
Qed.

Lemma add_task_fold tasks ts st :
  fold_left (add_task tasks) ts st =
  (fst st ++ flat_map (task_constraints tasks) ts,
   snd st ++ flat_map (task_warnings tasks) ts).
Proof.
  revert st; induction ts as [|t ts IH]; intros [cs out]; simpl.
  - now rewrite !app_nil_r.
  - rewrite IH. unfold add_task. rewrite add_predecessor_fold. simpl.
    unfold task_constraints, task_warnings.
    now rewrite <- !app_assoc.
Qed.

Lemma build_loop_closed tasks :
  build_loop tasks =
  (flat_map (task_constraints tasks) tasks,
   flat_map (task_warnings tasks) tasks).
Proof. unfold build_loop. now rewrite add_task_fold. Qed.

(** A reference resolves to the first row that carries it as its id. *)
Lemma iloc0_loc_inr tasks key row :
  iloc0 (loc_taskID tasks key) = inr row ->
  In row tasks /\ taskID row = key.
Proof.
  unfold loc_taskID. intros H.
  destruct (filter _ tasks) as [|x l] eqn:E; simpl in H; [discriminate|].
  injection H as <-.
  assert (Hin : In x (filter (fun r => String.eqb (taskID r) key) tasks))
    by (rewrite E; now left).
  apply filter_In in Hin as [Hin Heq].
  split; [exact Hin | now apply String.eqb_eq].
Qed.

Lemma iloc0_loc_member tasks t :
  In t tasks -> exists row, iloc0 (loc_taskID tasks (taskID t)) = inr row.
Proof.
  intros Hin. unfold loc_taskID.
  destruct (filter _ tasks) as [|x l] eqn:E.
  - assert (Hf : In t (filter (fun r => String.eqb (taskID r) (taskID t)) tasks))
      by (apply filter_In; split; [exact Hin | apply String.eqb_refl]).
    rewrite E in Hf. destruct Hf.
  - now exists x.
Qed.

(** With distinct ids a row is the first row of its id. *)
Lemma iloc0_loc_self tasks t :
  NoDup (map taskID tasks) -> In t tasks ->
  iloc0 (loc_taskID tasks (taskID t)) = inr t.
Proof.
  unfold loc_taskID.
  induction tasks as [|x tasks IH]; intros Hnd Hin; [destruct Hin|].
  simpl in Hnd. inversion Hnd as [|? ? Hnotin Hnd']; subst.
  simpl. destruct Hin as [->|Hin].
  - now rewrite String.eqb_refl.
  - destruct (String.eqb (taskID x) (taskID t)) eqn:E.
    + apply String.eqb_eq in E. exfalso. apply Hnotin. rewrite E.
      now apply in_map.
    + now apply IH.
Qed.

(** Membership in the constraint list of the problem. *)
Lemma in_constraints tasks c :
  In c (lp_constraints (build_problem tasks)) <->
  (exists t pred row,
      In t tasks /\ In pred (pred_list t) /\
      iloc0 (loc_taskID tasks pred) = inr row /\
      c = StartAfter (taskID t) pred (pert_duration row)) \/
  (exists t, In t tasks /\ c = Completion (taskID t) (pert_duration t)).
Proof.
  unfold build_problem; simpl. rewrite build_loop_closed; simpl.
  rewrite in_flat_map. split.
  - intros (t & Ht & Hc). unfold task_constraints in Hc.
    apply in_app_or in Hc as [Hc|Hc].
    + left. apply in_flat_map in Hc as (pred & Hp & Hc).
      unfold pred_constraint in Hc.
      destruct (iloc0 (loc_taskID tasks pred)) as [e|row] eqn:E;
        [destruct Hc|].
      destruct Hc as [<-|[]]. now exists t, pred, row.
    + right. destruct Hc as [<-|[]]. now exists t.
  - intros [(t & pred & row & Ht & Hp & E & ->)|(t & Ht & ->)];
      exists t; (split; [exact Ht|]); unfold task_constraints;
      apply in_or_app.
    + left. apply in_flat_map. exists pred. split; [exact Hp|].
      unfold pred_constraint. rewrite E. now left.
    + right. now left.
Qed.

Lemma lp_feasible_schedule tasks s T :
  lp_feasible (build_problem tasks) s T <-> schedule_feasible tasks s T.
Proof.
  unfold lp_feasible, schedule_feasible. rewrite Forall_forall. split.
  - intros (Hv & HT & Hc). repeat split; [| exact HT | |].
    + intros t Ht. apply Hv. simpl. now apply in_map.
    + intros t pred row Ht Hp E.
      destruct (iloc0_loc_inr _ _ _ E) as [_ Hid]. rewrite Hid.
      apply (Hc (StartAfter (taskID t) pred (pert_duration row))).
      apply in_constraints. left. now exists t, pred, row.
    + intros t Ht. apply (Hc (Completion (taskID t) (pert_duration t))).
      apply in_constraints. right. now exists t.
  - intros (Hv & HT & Hp & Hd). repeat split; [| exact HT |].
    + intros v Hin. simpl in Hin. apply in_map_iff in Hin as (t & <- & Ht).
      now apply Hv.
    + intros c Hc. apply in_constraints in Hc
        as [(t & pred & row & Ht & Hin & E & ->)|(t & Ht & ->)]; simpl.
      * destruct (iloc0_loc_inr _ _ _ E) as [_ Hid]. rewrite <- Hid at 1.
        now apply (Hp t pred row).
      * now apply Hd.
Qed.

Lemma extract_fold tasks sol ts res0 :
  incl ts tasks ->
  fold_left (extract_task tasks sol) (map taskID ts) (inr res0) =
  inr {| status := status res0;
         total_project_duration := total_project_duration res0;
         schedule := schedule_of sol (map taskID ts) (schedule res0);
         task_details := task_details res0 ++ map (detail_of tasks sol) ts |}.
Proof.
  revert res0; induction ts as [|t ts IH]; intros res0 Hincl; simpl.
  - rewrite app_nil_r. now destruct res0.
  - assert (Ht : In t tasks) by (apply Hincl; now left).
    destruct (iloc0_loc_member tasks t Ht) as [row Hrow].
    rewrite Hrow.
    rewrite IH by (intros x Hx; apply Hincl; now right).
    simpl. rewrite <- app_assoc. simpl.
    unfold detail_of at 2. rewrite Hrow. reflexivity.
Qed.

Lemma dict_get_set d k v k' :
  dict_get (dict_set d k v) k' =
  if String.eqb k k' then Some v else dict_get d k'.
Proof.
  induction d as [|[k0 v0] d IH]; simpl.
  - reflexivity.
  - destruct (String.eqb k0 k) eqn:E; simpl.
    + apply String.eqb_eq in E. subst k0.
      now destruct (String.eqb k k').
    + destruct (String.eqb k0 k') eqn:E'; [|exact IH].
      apply String.eqb_eq in E'. subst k0. now rewrite String.eqb_sym, E.
Qed.

Lemma dict_get_schedule_of sol ids d k :
  In k ids -> dict_get (schedule_of sol ids d) k = Some (start_value sol k).
Proof.
  unfold schedule_of. revert d.
  induction ids as [|i ids IH] using rev_ind; intros d Hin; [destruct Hin|].
  rewrite fold_left_app. simpl. rewrite dict_get_set.
  destruct (String.eqb i k) eqn:E.
  - apply String.eqb_eq in E. now subst.
  - apply in_app_or in Hin as [Hin|[->|[]]]; [now apply IH|].
    now rewrite String.eqb_refl in E.
Qed.

Section Outcome.

Variable LpStatus : Z -> string.
Variable solve : LpProblem -> LpSolution.

(** The two ways the function ends. *)
Lemma optimize_success tasks_df :
  let tasks := rows tasks_df in
  let sol := solve (build_problem tasks) in
  sol_status sol = 1%Z ->
  optimize_project_schedule LpStatus solve tasks_df =
  (assign_pert tasks_df, flat_map (task_warnings tasks) tasks,
   inr {| status := LpStatus 1%Z;
          total_project_duration := total_value sol;
          schedule := schedule_of sol (map taskID tasks) [];
          task_details := map (detail_of tasks sol) tasks |}).
Proof.
  intros tasks sol Hst. unfold optimize_project_schedule. simpl.
  fold tasks. fold sol. rewrite Hst. simpl.
  rewrite build_loop_closed. simpl.
  now rewrite extract_fold by apply incl_refl.
Qed.

Lemma optimize_failure tasks_df :
  let tasks := rows tasks_df in
  let sol := solve (build_problem tasks) in
  sol_status sol <> 1%Z ->
  optimize_project_schedule LpStatus solve tasks_df =
  (assign_pert tasks_df, flat_map (task_warnings tasks) tasks,
   inl (ValueError ("Could not find optimal solution. Status: "
                    ++ LpStatus (sol_status sol))%string)).
Proof.
  intros tasks sol Hst. unfold optimize_project_schedule. simpl.
  fold tasks. fold sol. apply Z.eqb_neq in Hst. rewrite Hst. simpl.
  now rewrite build_loop_closed.
Qed.

(** A returned result comes from a solve of status 1. *)
Lemma optimize_inr tasks_df df' printed res :
  optimize_project_schedule LpStatus solve tasks_df = (df', printed, inr res) ->
  sol_status (solve (build_problem (rows tasks_df))) = 1%Z.
Proof.
  intros H.
  destruct (Z.eq_dec (sol_status (solve (build_problem (rows tasks_df)))) 1)
    as [E|E]; [exact E|].
  rewrite (optimize_failure tasks_df E) in H. discriminate.
Qed.

End Outcome.

(** ** Maximum of a column *)

Lemma series_max_ge_head x xs : x <= series_max x xs.
Proof.
  unfold series_max. revert x; induction xs as [|y xs IH]; intros x; simpl.
  - apply Qle_refl.
  - eapply Qle_trans; [apply Q.le_max_l | apply IH].
Qed.

Lemma series_max_ge x xs y : In y (x :: xs) -> y <= series_max x xs.
Proof.
  revert x; induction xs as [|z xs IH]; intros x [<-|Hin].
  - apply Qle_refl.
  - destruct Hin.
  - apply series_max_ge_head.
  - unfold series_max; simpl. destruct Hin as [<-|Hin].
    + eapply Qle_trans; [apply Q.le_max_r | apply series_max_ge_head].
    + apply (IH (Qmax x z)). now right.
Qed.

Lemma series_max_attained x xs :
  exists y, In y (x :: xs) /\ series_max x xs == y.
Proof.
  revert x; induction xs as [|z xs IH]; intros x.
  - exists x. split; [now left | reflexivity].
  - unfold series_max; simpl.
    destruct (IH (Qmax x z)) as (y & [<-|Hin] & Hy).
    + destruct (Q.max_spec x z) as [[_ E]|[_ E]].
      * exists z. split; [right; now left|].
        unfold series_max in Hy. now rewrite Hy.
      * exists x. split; [now left|].
        unfold series_max in Hy. now rewrite Hy.
    + exists y. split; [right; now right | exact Hy].
Qed.

Lemma chain_constraints :
  lp_constraints (build_problem (rows chain_frame)) =
  [Completion "A" (12 # 6);
   StartAfter "B" "A" (12 # 6); Completion "B" (24 # 6);
   StartAfter "C" "B" (24 # 6); Completion "C" (6 # 6)].
Proof. reflexivity. Qed.

Lemma chain_contract :
  pulp_contract (build_problem (rows chain_frame))
                (chain_solve (build_problem (rows chain_frame))).
Proof.
  unfold pulp_contract, lp_feasible. rewrite chain_constraints.
  split; [intros _; repeat split | intros _; reflexivity].
  - intros v Hv. in_cases Hv; subst v; vm_compute; discriminate.
  - vm_compute; discriminate.
  - repeat constructor; vm_compute; discriminate.
  - intros s T (Hv & _ & Hc). forall_inv. simpl in *.
    assert (0 <= s "A") by (apply Hv; now left). lra.
Qed.

(** ** Precedence *)

(** The entries of [task_details] of a returned result. *)
Lemma details_of_result LpStatus solve tasks_df df' printed res :
  optimize_project_schedule LpStatus solve tasks_df = (df', printed, inr res) ->
  let tasks := rows tasks_df in
  let sol := solve (build_problem tasks) in
  sol_status sol = 1%Z /\
  total_project_duration res = total_value sol /\
  task_details res = map (detail_of tasks sol) tasks /\
  schedule res = schedule_of sol (map taskID tasks) [].
Proof.
  intros H tasks sol.
  pose proof (optimize_inr _ _ _ _ _ _ H) as Hst.
  rewrite (optimize_success LpStatus solve tasks_df Hst) in H.
  injection H as _ _ <-. now repeat split.
Qed.

(** C1. For every predecessor reference [pred] of a task [t] that resolves
    to a row [p] of the table, the returned schedule has an entry for [t]
    and one for [p], and in all such entries the end of [p], which is its
    start plus its PERT duration, is at most the start of [t]. *)
Theorem precedence_respected LpStatus solve tasks_df df' printed res :
  pulp_contract (build_problem (rows tasks_df))
                (solve (build_problem (rows tasks_df))) ->
  optimize_project_schedule LpStatus solve tasks_df = (df', printed, inr res) ->
  forall t pred p,
    In t (rows tasks_df) -> In pred (pred_list t) ->
    iloc0 (loc_taskID (rows tasks_df) pred) = inr p ->
    (exists dt dp,
        In dt (task_details res) /\ In dp (task_details res) /\
        res_taskID dt = taskID t /\ res_taskID dp = taskID p) /\
    (forall dt dp,
        In dt (task_details res) -> In dp (task_details res) ->
        res_taskID dt = taskID t -> res_taskID dp = taskID p ->
        end_time dp = start_time dp + pert_duration p /\
        end_time dp <= start_time dt) /\
    (exists st sp,
        dict_get (schedule res) (taskID t) = Some st /\
        dict_get (schedule res) (taskID p) = Some sp /\
        sp + pert_duration p <= st).
Proof.
  intros [Hsound _] Hrun t pred p Ht Hpred Hp.
  destruct (details_of_result _ _ _ _ _ _ Hrun) as (Hst & _ & Hdet & Hsch).
  destruct (Hsound Hst) as [Hfeas _].
  apply lp_feasible_schedule in Hfeas.
  destruct Hfeas as (_ & _ & Hprec & _).
  destruct (iloc0_loc_inr _ _ _ Hp) as [Hpin Hpid].
  pose proof (Hprec t pred p Ht Hpred Hp) as Hle.
  rewrite Hdet, Hsch. split; [|split].
  - exists (detail_of (rows tasks_df) (solve (build_problem (rows tasks_df))) t),
      (detail_of (rows tasks_df) (solve (build_problem (rows tasks_df))) p).
    repeat split; try (now apply in_map).
  - intros dt dp Hdt Hdp Eqt Eqp.
    apply in_map_iff in Hdt as (t' & <- & Ht').
    apply in_map_iff in Hdp as (p' & <- & Hp').
    simpl in Eqt, Eqp. unfold detail_of; simpl.
    rewrite Eqt, Eqp. rewrite <- Hpid in Hp. rewrite Hp.
    split; [reflexivity | exact Hle].
  - exists (start_value (solve (build_problem (rows tasks_df))) (taskID t)),
      (start_value (solve (build_problem (rows tasks_df))) (taskID p)).
    repeat split; try exact Hle;
      apply dict_get_schedule_of; now apply in_map.
Qed.

Lemma precedence_respected_witness :
  exists st sp,
    dict_get [("A", 0); ("B", 2); ("C", 6)] "C" = Some st /\
    dict_get [("A", 0); ("B", 2); ("C", 6)] "B" = Some sp /\
    sp + pert_duration task_B <= st.
Proof.
  exact (proj2 (proj2
    (precedence_respected pulp_LpStatus chain_solve chain_frame _ _ _
       chain_contract eq_refl task_C "B" task_B
       (or_intror (or_intror (or_introl eq_refl)))
       (or_introl eq_refl) eq_refl))).
Defined.

(** ** PERT duration *)

(** C3. The expected duration of a row is
    [(bestCaseHours + 4 * expectedHours + worstCaseHours) / 6] whatever the
    three values are; the call stores exactly this column in the frame,
    whether or not the solve succeeds; for (1, 2, 3) the duration is 2. *)
Theorem pert_duration_formula :
  (forall id preds best expected worst,
      pert_duration (mkTask id preds best expected worst)
      == (best + 4 * expected + worst) / 6) /\
  (forall LpStatus solve tasks_df,
      pert_column (fst (fst (optimize_project_schedule LpStatus solve tasks_df)))
      = Some (map (fun t => (bestCaseHours t + 4 * expectedHours t
                             + worstCaseHours t) / 6) (rows tasks_df))) /\
  pert_duration (mkTask "A" Missing 1 2 3) == 2.
Proof.
  split; [|split].
  - intros. unfold pert_duration; simpl. reflexivity.
  - intros. unfold optimize_project_schedule.
    destruct (negb _); reflexivity.
  - reflexivity.
Qed.

(** ** Makespan *)

Section Makespan.

Variable tasks : list task.
Variable sol : LpSolution.
Hypothesis contract : pulp_contract (build_problem tasks) sol.
Hypothesis solved : sol_status sol = 1%Z.
Hypothesis distinct : NoDup (map taskID tasks).
Hypothesis durations : forall t, In t tasks -> 0 <= pert_duration t.

Lemma detail_of_distinct t :
  In t tasks ->
  detail_of tasks sol t =
  {| res_taskID := taskID t;
     start_time := start_value sol (taskID t);
     res_pert_duration := pert_duration t;
     best_case := bestCaseHours t;
     expected_case := expectedHours t;
     worst_case := worstCaseHours t;
     end_time := start_value sol (taskID t) + pert_duration t |}.
Proof.
  intros Ht. unfold detail_of. now rewrite iloc0_loc_self.
Qed.

Lemma solved_feasible :
  schedule_feasible tasks (start_value sol) (total_value sol).
Proof. apply lp_feasible_schedule. now apply contract. Qed.

Lemma end_time_le_total d :
  In d (map (detail_of tasks sol) tasks) -> end_time d <= total_value sol.
Proof.
  intros Hd. apply in_map_iff in Hd as (t & <- & Ht).
  rewrite detail_of_distinct by exact Ht. simpl.
  destruct solved_feasible as (_ & _ & _ & Hend). now apply Hend.
Qed.

(** The largest end time is a feasible objective value, hence not below
    the optimum. *)
Lemma total_le_top d ds :
  map (detail_of tasks sol) tasks = d :: ds ->
  total_value sol <= series_max (end_time d) (map end_time ds).
Proof.
  intros E. destruct contract as [Hsound _].
  destruct (Hsound solved) as [_ Hopt].
  apply (Hopt (start_value sol)).
  apply lp_feasible_schedule.
  destruct solved_feasible as (Hs & _ & Hprec & _).
  assert (Hall : forall t, In t tasks ->
            start_value sol (taskID t) + pert_duration t
            <= series_max (end_time d) (map end_time ds)).
  { intros t Ht.
    apply (series_max_ge (end_time d) (map end_time ds)).
    change (end_time d :: map end_time ds) with (map end_time (d :: ds)).
    rewrite <- E, map_map. apply in_map_iff. exists t.
    split; [|exact Ht]. now rewrite detail_of_distinct. }
  repeat split; [exact Hs | | exact Hprec | exact Hall].
  destruct tasks as [|t0 ts] eqn:Et; [discriminate|].
  assert (Ht0 : In t0 (t0 :: ts)) by now left.
  pose proof (Hall t0 Ht0). pose proof (Hs t0 Ht0).
  pose proof (durations t0 Ht0). lra.
Qed.

Lemma top_is_total d ds :
  map (detail_of tasks sol) tasks = d :: ds ->
  series_max (end_time d) (map end_time ds) == total_value sol.
Proof.
  intros E. apply Qle_antisym; [|now apply total_le_top].
  destruct (series_max_attained (end_time d) (map end_time ds))
    as (y & Hy & ->).
  change (end_time d :: map end_time ds) with (map end_time (d :: ds)) in Hy.
  apply in_map_iff in Hy as (z & <- & Hz).
  apply end_time_le_total. now rewrite E.
Qed.

Lemma total_attained :
  tasks <> [] ->
  exists d, In d (map (detail_of tasks sol) tasks) /\
            end_time d == total_value sol.
Proof.
  intros Hne.
  destruct (map (detail_of tasks sol) tasks) as [|d ds] eqn:E.
  - destruct tasks; [now destruct Hne | discriminate].
  - destruct (series_max_attained (end_time d) (map end_time ds))
      as (y & Hy & Hmax).
    change (end_time d :: map end_time ds) with (map end_time (d :: ds)) in Hy.
    apply in_map_iff in Hy as (z & <- & Hz).
    exists z. split; [exact Hz|].
    rewrite <- Hmax. now apply top_is_total.
Qed.

End Makespan.

(** C4. With distinct task ids and non-negative PERT durations, every
    entry of a returned result belongs to a task, carries that task's PERT
    duration, has a start time that is not negative,
    [end_time = start_time + pert_duration] and an end time not above the
    reported total project duration; every task has an entry; and the
    reported duration is the end time of some entry, that is, the
    maximum. *)
Theorem makespan_is_max_end_time LpStatus solve tasks_df df' printed res :
  pulp_contract (build_problem (rows tasks_df))
                (solve (build_problem (rows tasks_df))) ->
  NoDup (map taskID (rows tasks_df)) ->
  (forall t, In t (rows tasks_df) -> 0 <= pert_duration t) ->
  optimize_project_schedule LpStatus solve tasks_df = (df', printed, inr res) ->
  (forall d, In d (task_details res) ->
     (exists t, In t (rows tasks_df) /\ res_taskID d = taskID t /\
                res_pert_duration d = pert_duration t) /\
     0 <= start_time d /\
     end_time d = start_time d + res_pert_duration d /\
     end_time d <= total_project_duration res) /\
  (forall t, In t (rows tasks_df) ->
     exists d, In d (task_details res) /\ res_taskID d = taskID t) /\
  (rows tasks_df <> [] ->
     exists d, In d (task_details res) /\
               end_time d == total_project_duration res).
Proof.
  intros Hc Hnd Hdur Hrun.
  destruct (details_of_result _ _ _ _ _ _ Hrun) as (Hst & Htot & Hdet & _).
  rewrite Hdet, Htot. split; [|split].
  - intros d Hd. split; [|split; [|split]].
    + apply in_map_iff in Hd as (t & <- & Ht). exists t.
      rewrite detail_of_distinct by assumption. now repeat split.
    + apply in_map_iff in Hd as (t & <- & Ht). simpl.
      destruct (solved_feasible _ _ Hc Hst) as (Hpos & _). now apply Hpos.
    + apply in_map_iff in Hd as (t & <- & Ht). reflexivity.
    + now apply (end_time_le_total (rows tasks_df)).
  - intros t Ht. exists (detail_of (rows tasks_df)
                           (solve (build_problem (rows tasks_df))) t).
    split; [now apply in_map | reflexivity].
  - now apply total_attained.
Qed.

Lemma chain_distinct : NoDup (map taskID (rows chain_frame)).
Proof.
  simpl. repeat constructor; simpl; intros H; in_cases H; discriminate.
Qed.

Lemma chain_durations :
  forall t, In t (rows chain_frame) -> 0 <= pert_duration t.
Proof. intros t H. in_cases H; subst t; vm_compute; discriminate. Qed.

Lemma makespan_is_max_end_time_witness :
  exists d,
    In d (map (detail_of (rows chain_frame) (chain_solve (build_problem (rows chain_frame))))
              (rows chain_frame)) /\
    end_time d == 7.
Proof.
  refine (proj2 (proj2
    (makespan_is_max_end_time pulp_LpStatus chain_solve chain_frame _ _ _
       chain_contract chain_distinct chain_durations eq_refl)) _).
  discriminate.
Defined.

(** ** The analysis *)

Section InsertionSort.

Variable before : Q -> Q -> bool.
Hypothesis before_true : forall x y, before x y = true -> x <= y.
Hypothesis before_false : forall x y, before x y = false -> y <= x.

Lemma insert_row_perm a l : Permutation (a :: l) (insert_row before a l).
Proof.
  induction l as [|b l IH]; simpl; [reflexivity|].
  destruct (before _ _); [reflexivity|].
  rewrite perm_swap. now constructor.
Qed.

Lemma insert_row_sorted a l :
  StronglySorted by_start l ->
  StronglySorted by_start (insert_row before a l).
Proof.
  induction 1 as [|b l Hs IH Hb]; simpl.
  - repeat constructor.
  - destruct (before _ _) eqn:E.
    + apply before_true in E. constructor.
      * now constructor.
      * constructor; [exact E|].
        eapply Forall_impl; [|exact Hb].
        intros c Hc. unfold by_start in *. lra.
    + apply before_false in E. constructor; [exact IH|].
      eapply Permutation_Forall; [apply insert_row_perm|].
      now constructor.
Qed.

Lemma insertion_sort_contract : sort_contract (insertion_sort before).
Proof.
  intros l. unfold insertion_sort. induction l as [|a l [IHp IHs]]; simpl.
  - split; constructor.
  - split.
    + rewrite <- insert_row_perm. now constructor.
    + now apply insert_row_sorted.
Qed.

End InsertionSort.

Lemma sort_ties_kept_contract : sort_contract sort_ties_kept.
Proof.
  apply insertion_sort_contract; intros x y H.
  - now apply Qle_bool_iff.
  - apply Qlt_le_weak, Qnot_le_lt.
    intros Hle. apply Qle_bool_iff in Hle. congruence.
Qed.

(** The result of the analysis, when there is one. *)
Lemma analyze_inr LpStatus solve sort_values tasks_df df' printed an :
  analyze_project_schedule LpStatus solve sort_values tasks_df
  = (df', printed, inr an) ->
  exists res d ds,
    optimize_project_schedule LpStatus solve tasks_df = (df', printed, inr res) /\
    task_details res = d :: ds /\
    an_total_project_duration an = total_project_duration res /\
    an_schedule an =
      sort_values (with_float (series_max (end_time d) (map end_time ds))
                              (d :: ds)).
Proof.
  unfold analyze_project_schedule.
  destruct (optimize_project_schedule LpStatus solve tasks_df)
    as [[df0 out0] [e|res]]; [discriminate|].
  unfold analyze_details.
  destruct (task_details res) as [|d ds] eqn:E; [discriminate|].
  intros H. injection H as <- <- <-.
  now exists res, d, ds.
Qed.

(** C8. With distinct task ids and non-negative PERT durations, in every
    returned analysis the float of each row is the reported total project
    duration minus the row's end time, it is not negative, and some row
    has float 0. *)
Theorem float_nonneg_and_critical_exists
    LpStatus solve sort_values tasks_df df' printed an :
  pulp_contract (build_problem (rows tasks_df))
                (solve (build_problem (rows tasks_df))) ->
  sort_contract sort_values ->
  NoDup (map taskID (rows tasks_df)) ->
  (forall t, In t (rows tasks_df) -> 0 <= pert_duration t) ->
  analyze_project_schedule LpStatus solve sort_values tasks_df
  = (df', printed, inr an) ->
  (forall r, In r (an_schedule an) ->
     float_time r == an_total_project_duration an - end_time (details r) /\
     0 <= float_time r) /\
  (exists r, In r (an_schedule an) /\ float_time r == 0).
Proof.
  intros Hc Hsort Hnd Hdur Hrun.
  destruct (analyze_inr _ _ _ _ _ _ _ Hrun)
    as (res & d & ds & Hopt & Hdet & Htot & Hsch).
  destruct (details_of_result _ _ _ _ _ _ Hopt) as (Hst & Htv & Hmap & _).
  rewrite Hdet in Hmap. symmetry in Hmap.
  pose proof (top_is_total _ _ Hc Hst Hnd Hdur d ds Hmap) as Htop.
  destruct (Hsort (with_float (series_max (end_time d) (map end_time ds))
                              (d :: ds))) as [Hperm _].
  rewrite Hsch, Htot, Htv. split.
  - intros r Hr. apply (Permutation_in _ (Permutation_sym Hperm)) in Hr.
    unfold with_float in Hr. apply in_map_iff in Hr as (x & <- & Hx). simpl.
    split; [now rewrite Htop|].
    assert (end_time x <= series_max (end_time d) (map end_time ds)).
    { apply series_max_ge.
      change (end_time d :: map end_time ds) with (map end_time (d :: ds)).
      now apply in_map. }
    lra.
  - destruct (series_max_attained (end_time d) (map end_time ds))
      as (y & Hy & Hmax).
    change (end_time d :: map end_time ds) with (map end_time (d :: ds)) in Hy.
    apply in_map_iff in Hy as (x & <- & Hx).
    exists {| details := x;
              float_time := series_max (end_time d) (map end_time ds)
                            - end_time x |}.
    split.
    + apply (Permutation_in _ Hperm). unfold with_float.
      apply in_map_iff. now exists x.
    + simpl. lra.
Qed.

Lemma float_nonneg_and_critical_exists_witness :
  exists r,
    In r (sort_ties_kept
            (with_float (series_max (12 # 6) [36 # 6; 42 # 6])
               (map (detail_of (rows chain_frame)
                       (chain_solve (build_problem (rows chain_frame))))
                    (rows chain_frame)))) /\
    float_time r == 0.
Proof.
  exact (proj2
    (float_nonneg_and_critical_exists pulp_LpStatus chain_solve sort_ties_kept
       chain_frame _ _ _
       chain_contract sort_ties_kept_contract chain_distinct chain_durations
       eq_refl)).
Defined.



Lemma tie_constraints :
  lp_constraints (build_problem (rows tie_frame)) =
  [Completion "A" (12 # 6); Completion "D" (6 # 6)].
Proof. reflexivity. Qed.

Lemma tie_contract :
  pulp_contract (build_problem (rows tie_frame))
                (tie_solve (build_problem (rows tie_frame))).
Proof.
  unfold pulp_contract, lp_feasible. rewrite tie_constraints.
  split; [intros _; repeat split | intros _; reflexivity].
  - intros v Hv. in_cases Hv; subst v; vm_compute; discriminate.
  - vm_compute; discriminate.
  - repeat constructor; vm_compute; discriminate.
  - intros s T (Hv & _ & Hc). forall_inv. simpl in *.
    assert (0 <= s "A") by (apply Hv; now left). lra.
Qed.




(** ** The empty table *)

(** C6 (as the code has it). On a table without rows the call returns a
    result: no entries, an empty schedule, and a total project duration of
    0; nothing is printed. *)
Theorem empty_task_set_succeeds LpStatus solve col :
  pulp_contract (build_problem []) (solve (build_problem [])) ->
  exists res,
    optimize_project_schedule LpStatus solve (mkFrame [] col)
    = (mkFrame [] (Some []), [], inr res) /\
    status res = LpStatus 1%Z /\
    total_project_duration res == 0 /\
    schedule res = [] /\
    task_details res = [].
Proof.
  intros [Hsound Hcomplete].
  assert (Hfeas : lp_feasible (build_problem []) (fun _ => 0) 0).
  { repeat split; simpl; [intros v [] | lra | constructor]. }
  assert (Hst : sol_status (solve (build_problem [])) = 1%Z)
    by (apply Hcomplete; now exists (fun _ => 0), 0).
  destruct (Hsound Hst) as [(_ & Hpos & _) Hopt].
  pose proof (Hopt _ _ Hfeas) as Hle.
  pose proof (optimize_success LpStatus solve (mkFrame [] col) Hst) as Hrun.
  simpl in Hrun. eexists. split; [exact Hrun|]. simpl.
  repeat split. lra.
Qed.

Lemma empty_contract :
  pulp_contract (build_problem []) (empty_solve (build_problem [])).
Proof.
  split; [intros _; split | intros _; reflexivity].
  - repeat split; simpl; [intros v [] | lra | constructor].
  - intros s T (_ & HT & _). exact HT.
Qed.

Lemma empty_task_set_succeeds_witness :
  exists res,
    optimize_project_schedule pulp_LpStatus empty_solve (mkFrame [] None)
    = (mkFrame [] (Some []), [], inr res) /\
    status res = "Optimal" /\
    total_project_duration res == 0 /\
    schedule res = [] /\
    task_details res = [].
Proof.
  exact (empty_task_set_succeeds pulp_LpStatus empty_solve None empty_contract).
Defined.

(** C6, the claim fails: no error is raised for zero tasks; the status is
    "Optimal" and the duration 0. *)
Lemma empty_task_set_returns_zero :
  pulp_contract (build_problem []) (empty_solve (build_problem [])) /\
  optimize_project_schedule pulp_LpStatus empty_solve (mkFrame [] None)
  = (mkFrame [] (Some []), [],
     inr {| status := "Optimal";
            total_project_duration := 0;
            schedule := [];
            task_details := [] |}).
Proof. split; [exact empty_contract | reflexivity]. Qed.

(** ** The caller's frame *)

(** C10 (as the code has it). The call leaves the rows of the caller's
    frame as they were (ids, predecessor cells and the three estimates) and
    sets its ['pert_duration'] column, whether the solve succeeds or not;
    the analyzer, which makes the same call, does the same. *)
Theorem call_sets_pert_column LpStatus solve sort_values tasks_df :
  let after := fst (fst (optimize_project_schedule LpStatus solve tasks_df)) in
  rows after = rows tasks_df /\
  pert_column after = Some (map pert_duration (rows tasks_df)) /\
  fst (fst (analyze_project_schedule LpStatus solve sort_values tasks_df))
  = after.
Proof.
  unfold analyze_project_schedule, optimize_project_schedule.
  destruct (negb _); simpl; [now repeat split|].
  destruct (fold_left _ _ _); now repeat split.
Qed.

(** C10, the claim fails: the frame of the three-task chain has no
    ['pert_duration'] column before the call and has one after it. *)
Lemma input_frame_mutated :
  pert_column chain_frame = None /\
  pert_column
    (fst (fst (optimize_project_schedule pulp_LpStatus chain_solve chain_frame)))
  = Some [12 # 6; 24 # 6; 6 # 6] /\
  fst (fst (optimize_project_schedule pulp_LpStatus chain_solve chain_frame))
  <> chain_frame.
Proof.
  split; [reflexivity|]. split; [reflexivity|]. discriminate.
Qed.

(** ** Cycles *)

Lemma dependency_path_bound tasks s T p t w :
  schedule_feasible tasks s T ->
  dependency_path tasks p t w ->
  s (taskID p) + w <= s (taskID t).
Proof.
  intros (_ & _ & Hprec & _). induction 1 as [p t Hd|p q t w Hd _ IH].
  - destruct Hd as (Ht & pred & Hpred & Hp). exact (Hprec t pred p Ht Hpred Hp).
  - destruct Hd as (Hq & pred & Hpred & Hp).
    pose proof (Hprec q pred p Hq Hpred Hp). lra.
Qed.

Lemma positive_cycle_infeasible tasks t w :
  dependency_path tasks t t w -> 0 < w ->
  ~ exists s T, lp_feasible (build_problem tasks) s T.
Proof.
  intros Hpath Hw (s & T & Hfeas). apply lp_feasible_schedule in Hfeas.
  pose proof (dependency_path_bound _ _ _ _ _ _ Hfeas Hpath). lra.
Qed.

(** C5 (as the code has it). When the dependencies contain a cycle whose
    PERT durations add up to more than 0, the problem has no solution, the
    status is not 1, and the call raises [ValueError] with the message made
    from the name of the solver's status; no result is returned, from the
    solver or from the analyzer. *)
Theorem positive_cycle_raises_value_error
    LpStatus solve sort_values tasks_df t w :
  pulp_contract (build_problem (rows tasks_df))
                (solve (build_problem (rows tasks_df))) ->
  dependency_path (rows tasks_df) t t w -> 0 < w ->
  let st := sol_status (solve (build_problem (rows tasks_df))) in
  let err := ValueError ("Could not find optimal solution. Status: "
                         ++ LpStatus st)%string in
  st <> 1%Z /\
  snd (optimize_project_schedule LpStatus solve tasks_df) = inl err /\
  snd (analyze_project_schedule LpStatus solve sort_values tasks_df) = inl err.
Proof.
  intros [Hsound _] Hpath Hw st err.
  assert (Hst : st <> 1%Z).
  { intros E. destruct (Hsound E) as [Hfeas _].
    apply (positive_cycle_infeasible _ _ _ Hpath Hw).
    now exists (start_value (solve (build_problem (rows tasks_df)))),
      (total_value (solve (build_problem (rows tasks_df)))). }
  split; [exact Hst|].
  unfold analyze_project_schedule.
  rewrite (optimize_failure LpStatus solve tasks_df Hst). now split.
Qed.

Lemma cycle_constraints :
  lp_constraints (build_problem (rows cycle_frame)) =
  [StartAfter "A" "B" (24 # 6); Completion "A" (12 # 6);
   StartAfter "B" "A" (12 # 6); Completion "B" (24 # 6)].
Proof. reflexivity. Qed.

Lemma cycle_contract :
  pulp_contract (build_problem (rows cycle_frame))
                (cycle_solve (build_problem (rows cycle_frame))).
Proof.
  unfold pulp_contract, lp_feasible. rewrite cycle_constraints.
  split; [discriminate|].
  intros (s & T & _ & _ & Hc). exfalso. forall_inv. simpl in *. lra.
Qed.

Lemma cycle_path :
  dependency_path (rows cycle_frame)
    (mkTask "A" (Str "B") 1 2 3) (mkTask "A" (Str "B") 1 2 3)
    (pert_duration (mkTask "A" (Str "B") 1 2 3)
     + pert_duration (mkTask "B" (Str "A") 2 4 6)).
Proof.
  apply path_step with (q := mkTask "B" (Str "A") 2 4 6).
  - split; [right; now left|]. exists "A". split; [now left | reflexivity].
  - apply path_edge.
    split; [now left|]. exists "B". split; [now left | reflexivity].
Qed.

Lemma positive_cycle_raises_value_error_witness :
  snd (optimize_project_schedule pulp_LpStatus cycle_solve cycle_frame)
  = inl (ValueError "Could not find optimal solution. Status: Infeasible").
Proof.
  refine (proj1 (proj2
    (positive_cycle_raises_value_error pulp_LpStatus cycle_solve sort_ties_kept
       cycle_frame _ _ cycle_contract cycle_path _))).
  reflexivity.
Defined.

(** C5, the claim fails: for A and B depending on each other the call
    raises the [ValueError] whose message is the status string of the
    solver; the message names neither task. *)
Lemma cycle_reports_status_string :
  pulp_contract (build_problem (rows cycle_frame))
                (cycle_solve (build_problem (rows cycle_frame))) /\
  optimize_project_schedule pulp_LpStatus cycle_solve cycle_frame
  = (assign_pert cycle_frame, [],
     inl (ValueError "Could not find optimal solution. Status: Infeasible")).
Proof. split; [exact cycle_contract | reflexivity]. Qed.

(** A cycle of tasks that take no time is scheduled: the constraints of A
    and B depending on each other, both of duration 0, hold with every
    start at 0. *)
Lemma zero_cycle_scheduled LpStatus solve :
  pulp_contract (build_problem (rows zero_cycle_frame))
                (solve (build_problem (rows zero_cycle_frame))) ->
  dependency_path (rows zero_cycle_frame)
    (mkTask "A" (Str "B") 0 0 0) (mkTask "A" (Str "B") 0 0 0)
    (pert_duration (mkTask "A" (Str "B") 0 0 0)
     + pert_duration (mkTask "B" (Str "A") 0 0 0)) /\
  exists res,
    snd (optimize_project_schedule LpStatus solve zero_cycle_frame) = inr res.
Proof.
  intros [_ Hcomplete]. split.
  - apply path_step with (q := mkTask "B" (Str "A") 0 0 0).
    + split; [right; now left|]. exists "A". split; [now left | reflexivity].
    + apply path_edge.
      split; [now left|]. exists "B". split; [now left | reflexivity].
  - assert (Hst : sol_status (solve (build_problem (rows zero_cycle_frame)))
                  = 1%Z).
    { apply Hcomplete. exists (fun _ => 0), 0. unfold lp_feasible.
      change (lp_constraints (build_problem (rows zero_cycle_frame)))
        with [StartAfter "A" "B" (0 # 6); Completion "A" (0 # 6);
              StartAfter "B" "A" (0 # 6); Completion "B" (0 # 6)].
      split; [intros v _; apply Qle_refl|].
      split; [apply Qle_refl|].
      repeat constructor; vm_compute; discriminate. }
    rewrite (optimize_success LpStatus solve zero_cycle_frame Hst).
    eexists. reflexivity.
Qed.

(** ** Unresolved predecessor references *)

Lemma same_numbers_pert t t' :
  same_numbers t t' -> pert_duration t = pert_duration t'.
Proof.
  intros (_ & Hb & He & Hw). unfold pert_duration. now rewrite Hb, He, Hw.
Qed.

Lemma resolves_iloc0 tasks pred :
  resolves tasks pred = match iloc0 (loc_taskID tasks pred) with
                        | inr _ => true
                        | inl _ => false
                        end.
Proof.
  unfold resolves, loc_taskID.
  induction tasks as [|x tasks IH]; simpl; [reflexivity|].
  destruct (String.eqb (taskID x) pred); simpl; [reflexivity | exact IH].
Qed.

Lemma loc_same_numbers ts ts' key :
  Forall2 same_numbers ts ts' ->
  match iloc0 (loc_taskID ts key), iloc0 (loc_taskID ts' key) with
  | inr r, inr r' => same_numbers r r'
  | inl _, inl _ => True
  | _, _ => False
  end.
Proof.
  unfold loc_taskID. induction 1 as [|x x' ts ts' Hx _ IH]; simpl; [exact I|].
  destruct Hx as (Hid & Hrest). rewrite <- Hid.
  destruct (String.eqb (taskID x) key); simpl; [|exact IH].
  split; [exact Hid | exact Hrest].
Qed.

Lemma pred_constraint_resolved tasks task_id preds :
  flat_map (pred_constraint tasks task_id) (filter (resolves tasks) preds)
  = flat_map (pred_constraint tasks task_id) preds.
Proof.
  induction preds as [|r preds IH]; simpl; [reflexivity|].
  rewrite resolves_iloc0.
  assert (Hr : forall e, iloc0 (loc_taskID tasks r) = inl e ->
                         pred_constraint tasks task_id r = []).
  { intros e E. unfold pred_constraint. now rewrite E. }
  destruct (iloc0 (loc_taskID tasks r)) as [e|row]; simpl.
  - now rewrite (Hr e eq_refl).
  - now rewrite IH.
Qed.

Section SameApart.

Variables tasks tasks' : list task.
Hypothesis numbers : Forall2 same_numbers tasks tasks'.

Lemma pred_constraint_same task_id pred :
  pred_constraint tasks task_id pred = pred_constraint tasks' task_id pred.
Proof.
  unfold pred_constraint. pose proof (loc_same_numbers _ _ pred numbers) as H.
  destruct (iloc0 (loc_taskID tasks pred)) as [e|r],
           (iloc0 (loc_taskID tasks' pred)) as [e'|r'];
    try reflexivity; try destruct H.
  now rewrite (same_numbers_pert r r').
Qed.

Lemma task_constraints_same t t' :
  same_numbers t t' ->
  resolved_preds tasks t = resolved_preds tasks' t' ->
  task_constraints tasks t = task_constraints tasks' t'.
Proof.
  intros Hn Hr. unfold task_constraints.
  rewrite <- (same_numbers_pert _ _ Hn).
  destruct Hn as (Hid & _). rewrite <- Hid. f_equal.
  rewrite <- (pred_constraint_resolved tasks),
          <- (pred_constraint_resolved tasks').
  unfold resolved_preds in Hr. rewrite Hr.
  apply flat_map_ext. intros pred. apply pred_constraint_same.
Qed.

Lemma detail_of_same sol t t' :
  same_numbers t t' -> detail_of tasks sol t = detail_of tasks' sol t'.
Proof.
  intros Hn. unfold detail_of.
  pose proof (loc_same_numbers _ _ (taskID t) numbers) as H.
  destruct Hn as (Hid & Hb & He & Hw). rewrite <- Hid.
  destruct (iloc0 (loc_taskID tasks (taskID t))) as [e|r],
           (iloc0 (loc_taskID tasks' (taskID t))) as [e'|r'];
    try (now destruct H).
  - unfold pert_duration. now rewrite Hb, He, Hw.
  - destruct H as (_ & Hb' & He' & Hw'). unfold pert_duration.
    now rewrite Hb', He', Hw'.
Qed.

End SameApart.

Lemma same_apart_numbers tasks tasks' :
  same_apart_from_unresolved tasks tasks' -> Forall2 same_numbers tasks tasks'.
Proof.
  intros H. eapply Forall2_impl; [|exact H]. now intros t t' [Hn _].
Qed.

Lemma same_apart_ids tasks tasks' :
  Forall2 same_numbers tasks tasks' -> map taskID tasks = map taskID tasks'.
Proof.
  induction 1 as [|t t' ts ts' [Hid _] _ IH]; simpl; [reflexivity|].
  now rewrite Hid, IH.
Qed.

Lemma same_apart_problem tasks tasks' :
  same_apart_from_unresolved tasks tasks' ->
  build_problem tasks = build_problem tasks'.
Proof.
  intros H. pose proof (same_apart_numbers _ _ H) as Hn.
  unfold build_problem. rewrite !build_loop_closed. simpl.
  rewrite (same_apart_ids _ _ Hn). f_equal.
  unfold same_apart_from_unresolved in H.
  generalize (task_constraints_same tasks tasks' Hn).
  generalize (task_constraints tasks) (task_constraints tasks').
  intros f g Hfg. induction H as [|t t' ts ts' [Ht Hr] _ IH]; simpl;
    [reflexivity|].
  now rewrite IH, (Hfg t t' Ht Hr).
Qed.

Lemma same_apart_details tasks tasks' sol :
  Forall2 same_numbers tasks tasks' ->
  map (detail_of tasks sol) tasks = map (detail_of tasks' sol) tasks'.
Proof.
  intros Hn. generalize (detail_of_same tasks tasks' Hn sol).
  generalize (detail_of tasks sol) (detail_of tasks' sol).
  intros f g Hfg. induction Hn as [|t t' ts ts' Ht _ IH]; simpl; [reflexivity|].
  now rewrite IH, (Hfg t t' Ht).
Qed.

(** The outcome of the call does not depend on unresolved references. *)
Lemma same_apart_outcome LpStatus solve df df' :
  same_apart_from_unresolved (rows df) (rows df') ->
  snd (optimize_project_schedule LpStatus solve df)
  = snd (optimize_project_schedule LpStatus solve df').
Proof.
  intros H. pose proof (same_apart_problem _ _ H) as Hp.
  pose proof (same_apart_numbers _ _ H) as Hn.
  destruct (Z.eq_dec (sol_status (solve (build_problem (rows df)))) 1)
    as [E|E].
  - rewrite (optimize_success LpStatus solve df E).
    rewrite Hp in E. rewrite (optimize_success LpStatus solve df' E).
    simpl. rewrite Hp, (same_apart_ids _ _ Hn).
    now rewrite (same_apart_details _ _ _ Hn).
  - rewrite (optimize_failure LpStatus solve df E).
    rewrite Hp in E. rewrite (optimize_failure LpStatus solve df' E).
    simpl. now rewrite Hp.
Qed.

Lemma optimize_printed LpStatus solve tasks_df :
  snd (fst (optimize_project_schedule LpStatus solve tasks_df))
  = flat_map (task_warnings (rows tasks_df)) (rows tasks_df).
Proof.
  destruct (Z.eq_dec (sol_status (solve (build_problem (rows tasks_df)))) 1)
    as [E|E].
  - now rewrite (optimize_success LpStatus solve tasks_df E).
  - now rewrite (optimize_failure LpStatus solve tasks_df E).
Qed.

Lemma task_warnings_unresolved tasks t :
  task_warnings tasks t =
  map (fun pred => warning pred (taskID t))
      (filter (fun pred => negb (resolves tasks pred)) (pred_list t)).
Proof.
  unfold task_warnings. induction (pred_list t) as [|r preds IH]; simpl;
    [reflexivity|].
  rewrite resolves_iloc0. unfold pred_warning at 1.
  destruct (iloc0 (loc_taskID tasks r)); simpl; now rewrite IH.
Qed.

(** C7 (as the code has it). For a predecessor reference of a task that
    names no row of the table: the line
    ["Warning: Predecessor <reference> not found for task <id>"] is printed;
    the lines printed are these warnings, one for each unresolved reference
    in the order met; no constraint is made for the reference; and the
    outcome of the call is that of any table which differs only in
    references that do not resolve, such as the table without the
    reference. *)
Theorem unresolved_predecessor_warned_and_skipped
    LpStatus solve tasks_df t pred :
  In t (rows tasks_df) -> In pred (pred_list t) ->
  (forall row, In row (rows tasks_df) -> taskID row <> pred) ->
  let run := optimize_project_schedule LpStatus solve tasks_df in
  In (warning pred (taskID t)) (snd (fst run)) /\
  snd (fst run) =
    flat_map (fun t' => map (fun r => warning r (taskID t'))
                          (filter (fun r => negb (resolves (rows tasks_df) r))
                                  (pred_list t')))
             (rows tasks_df) /\
  (forall t' d,
     ~ In (StartAfter t' pred d) (lp_constraints (build_problem (rows tasks_df)))) /\
  (forall other,
     same_apart_from_unresolved (rows tasks_df) (rows other) ->
     snd (optimize_project_schedule LpStatus solve other) = snd run).
Proof.
  intros Ht Hpred Hnone run. unfold run.
  assert (Hprinted : snd (fst (optimize_project_schedule LpStatus solve tasks_df))
            = flat_map (fun t' => map (fun r => warning r (taskID t'))
                          (filter (fun r => negb (resolves (rows tasks_df) r))
                                  (pred_list t')))
                       (rows tasks_df)).
  { rewrite optimize_printed. apply flat_map_ext.
    intros t'. apply task_warnings_unresolved. }
  assert (Hun : resolves (rows tasks_df) pred = false).
  { rewrite resolves_iloc0.
    destruct (iloc0 (loc_taskID (rows tasks_df) pred)) as [e|row] eqn:E;
      [reflexivity|].
    destruct (iloc0_loc_inr _ _ _ E) as [Hin Hid].
    now destruct (Hnone row Hin). }
  split; [|split; [exact Hprinted|split]].
  - rewrite Hprinted. apply in_flat_map. exists t. split; [exact Ht|].
    apply in_map_iff. exists pred. split; [reflexivity|].
    apply filter_In. split; [exact Hpred | now rewrite Hun].
  - intros t' d Hin. apply in_constraints in Hin
      as [(t0 & pred0 & row & _ & _ & E & Heq)|(t0 & _ & Heq)];
      [|discriminate].
    injection Heq as _ <- _.
    destruct (iloc0_loc_inr _ _ _ E) as [Hin Hid].
    now destruct (Hnone row Hin).
  - intros other Hsame. symmetry. now apply same_apart_outcome.
Qed.

Lemma dangling_same : same_apart_from_unresolved (rows dangling_frame)
                                                 (rows plain_frame).
Proof. repeat constructor. Qed.

Lemma unresolved_predecessor_warned_and_skipped_witness :
  In "Warning: Predecessor Z not found for task A"
     (snd (fst (optimize_project_schedule pulp_LpStatus single_solve
                  dangling_frame))) /\
  snd (optimize_project_schedule pulp_LpStatus single_solve plain_frame)
  = snd (optimize_project_schedule pulp_LpStatus single_solve dangling_frame).
Proof.
  pose proof (unresolved_predecessor_warned_and_skipped
                pulp_LpStatus single_solve dangling_frame
                (mkTask "A" (Str "Z") 1 2 3) "Z"
                (or_introl eq_refl) (or_introl eq_refl)) as H.
  assert (Hnone : forall row, In row (rows dangling_frame) -> taskID row <> "Z").
  { intros row Hin. in_cases Hin. subst row. discriminate. }
  destruct (H Hnone) as (Hw & _ & _ & Hsame).
  split; [exact Hw | exact (Hsame plain_frame dangling_same)].
Defined.

Lemma single_contract :
  pulp_contract (build_problem (rows dangling_frame))
                (single_solve (build_problem (rows dangling_frame))).
Proof.
  unfold pulp_contract, lp_feasible.
  change (lp_constraints (build_problem (rows dangling_frame)))
    with [Completion "A" (12 # 6)].
  split; [intros _; repeat split | intros _; reflexivity].
  - intros v Hv. in_cases Hv; subst v; vm_compute; discriminate.
  - vm_compute; discriminate.
  - repeat constructor; vm_compute; discriminate.
  - intros s T (Hv & _ & Hc). forall_inv. simpl in *.
    assert (0 <= s "A") by (apply Hv; now left). lra.
Qed.

(** C7, the claim fails: the warning for the unresolved Z is printed, and
    the value returned, a result with no field for warnings, is the very
    value returned for the table without the reference, for which nothing
    is printed. *)
Lemma warnings_only_printed :
  pulp_contract (build_problem (rows dangling_frame))
                (single_solve (build_problem (rows dangling_frame))) /\
  snd (fst (optimize_project_schedule pulp_LpStatus single_solve dangling_frame))
  = ["Warning: Predecessor Z not found for task A"] /\
  snd (fst (optimize_project_schedule pulp_LpStatus single_solve plain_frame))
  = [] /\
  snd (optimize_project_schedule pulp_LpStatus single_solve dangling_frame)
  = snd (optimize_project_schedule pulp_LpStatus single_solve plain_frame) /\
  exists res,
    snd (optimize_project_schedule pulp_LpStatus single_solve dangling_frame)
    = inr res.
Proof.
  split; [exact single_contract|].
  repeat split; try reflexivity. eexists. reflexivity.
Qed.

(** ** Acyclic tables and the least makespan *)

Lemma rank_step (a b : nat) (D d : Q) :
  (a < b)%nat -> 0 <= D -> d <= D ->
  inject_Z (Z.of_nat a) * D + d <= inject_Z (Z.of_nat b) * D.
Proof.
  intros Hab HD Hd.
  assert (H1 : inject_Z (Z.of_nat a) + 1 <= inject_Z (Z.of_nat b)).
  { change 1 with (inject_Z 1). rewrite <- inject_Z_plus.
    rewrite <- Zle_Qle. lia. }
  pose proof (Qmult_le_compat_r _ _ D H1 HD) as H2.
  assert (H3 : (inject_Z (Z.of_nat a) + 1) * D
               == inject_Z (Z.of_nat a) * D + D) by ring.
  rewrite H3 in H2. lra.
Qed.

Lemma ranked_feasible tasks rank :
  (forall t pred p,
      In t tasks -> In pred (pred_list t) ->
      iloc0 (loc_taskID tasks pred) = inr p ->
      (rank (taskID p) < rank (taskID t))%nat) ->
  schedule_feasible tasks (ranked_start tasks rank) (ranked_total tasks rank).
Proof.
  intros Hrank.
  assert (HD : 0 <= longest tasks) by apply series_max_ge_head.
  assert (Hd : forall t, In t tasks -> pert_duration t <= longest tasks).
  { intros t Ht. apply series_max_ge. right. now apply in_map. }
  repeat split.
  - intros t _. unfold ranked_start. apply Qmult_le_0_compat; [|exact HD].
    change 0 with (inject_Z 0). rewrite <- Zle_Qle. lia.
  - apply series_max_ge_head.
  - intros t pred p Ht Hpred Hp. unfold ranked_start.
    destruct (iloc0_loc_inr _ _ _ Hp) as [Hpin _].
    apply rank_step; [now apply (Hrank t pred p) | exact HD | now apply Hd].
  - intros t Ht. unfold ranked_total. apply series_max_ge. right.
    apply in_map_iff. now exists t.
Qed.

(** For an acyclic table the bounds can be met. *)
Lemma acyclic_schedulable tasks :
  acyclic tasks -> exists s T, schedule_feasible tasks s T.
Proof.
  intros [rank Hrank].
  exists (ranked_start tasks rank), (ranked_total tasks rank).
  now apply ranked_feasible.
Qed.






(** * Further properties of the code *)

(** ** Splitting and stripping *)

Lemma split_comma_cons s : exists piece pieces, split_comma s = piece :: pieces.
Proof.
  induction s as [|c s (piece & pieces & IH)]; simpl.
  - now exists EmptyString, [].
  - destruct (Ascii.eqb c ","); [now eexists; eexists|].
    rewrite IH. now eexists; eexists.
Qed.

(** Joining the pieces of a split with commas gives the text back. *)
Lemma join_split_comma s : String.concat "," (split_comma s) = s.
Proof.
  induction s as [|c s IH]; simpl; [reflexivity|].
  destruct (Ascii.eqb c ",") eqn:E.
  - apply Ascii.eqb_eq in E. subst c.
    destruct (split_comma_cons s) as (piece & pieces & Hs).
    rewrite Hs in *.
    change (String.concat "," (EmptyString :: piece :: pieces))
      with (String "," (String.concat "," (piece :: pieces))).
    now rewrite IH.
  - destruct (split_comma_cons s) as (piece & pieces & Hs).
    rewrite Hs in *. rewrite <- IH.
    destruct pieces; reflexivity.
Qed.

Lemma split_comma_app p s :
  has_comma p = false ->
  split_comma (p ++ s) =
  match split_comma s with
  | piece :: pieces => (p ++ piece)%string :: pieces
  | [] => [p]
  end.
Proof.
  destruct (split_comma_cons s) as (piece & pieces & Hs).
  induction p as [|c p IH]; simpl; intros H.
  - now rewrite Hs.
  - apply orb_false_iff in H as [Hc Hp]. rewrite Hc, (IH Hp).
    now rewrite Hs.
Qed.

Lemma split_comma_comma_free p :
  has_comma p = false -> split_comma p = [p].
Proof.
  induction p as [|c p IH]; simpl; intros H; [reflexivity|].
  apply orb_false_iff in H as [Hc Hp]. now rewrite Hc, (IH Hp).
Qed.

(** Splitting a join of comma-free pieces gives the pieces back. *)
Lemma split_join_comma pieces :
  pieces <> [] -> Forall (fun p => has_comma p = false) pieces ->
  split_comma (String.concat "," pieces) = pieces.
Proof.
  intros Hne Hall. induction Hall as [|p pieces Hp Hall IH]; [now destruct Hne|].
  destruct pieces as [|q pieces].
  - simpl. now apply split_comma_comma_free.
  - change (String.concat "," (p :: q :: pieces))
      with (p ++ String "," (String.concat "," (q :: pieces)))%string.
    rewrite split_comma_app by exact Hp.
    change (split_comma (String "," (String.concat "," (q :: pieces))))
      with (EmptyString :: split_comma (String.concat "," (q :: pieces))).
    rewrite IH by discriminate. f_equal.
    clear. induction p as [|c p IHp]; simpl; congruence.
Qed.

Lemma split_join_comma_witness :
  split_comma (String.concat "," ["A"; " B "; ""]) = ["A"; " B "; ""].
Proof.
  apply split_join_comma; [discriminate | repeat constructor].
Defined.

Lemma lstrip_spec s :
  exists l, all_space l = true /\ s = (l ++ lstrip s)%string /\
            starts_with_space (lstrip s) = false.
Proof.
  induction s as [|c s (l & Hl & Hs & Hst)]; simpl.
  - now exists EmptyString.
  - destruct (is_space c) eqn:E.
    + exists (String c l). simpl. rewrite E, Hl. now rewrite <- Hs.
    + exists EmptyString. simpl. now rewrite E.
Qed.

Lemma rstrip_spec s :
  exists r, all_space r = true /\ s = (rstrip s ++ r)%string /\
            ends_with_space (rstrip s) = false.
Proof.
  induction s as [|c s (r & Hr & Hs & Hen)]; simpl.
  - now exists EmptyString.
  - destruct (rstrip s) as [|c' s'] eqn:E.
    + destruct (is_space c) eqn:Ec.
      * exists (String c r). simpl in *. subst s. now rewrite Ec, Hr.
      * exists r. simpl in *. subst s. now rewrite Ec.
    + exists r. split; [exact Hr|]. split; [|exact Hen].
      change (String c s = String c (String c' s' ++ r)). now rewrite <- Hs.
Qed.

Lemma rstrip_starts s :
  starts_with_space s = false -> starts_with_space (rstrip s) = false.
Proof.
  destruct s as [|c s]; simpl; [reflexivity|]. intros Hc.
  destruct (rstrip s); simpl; [now rewrite Hc | exact Hc].
Qed.

(** [strip] removes white space at both ends and nothing else. *)
Lemma strip_spec s :
  padded s (strip s) /\
  starts_with_space (strip s) = false /\
  ends_with_space (strip s) = false.
Proof.
  unfold strip, padded.
  destruct (lstrip_spec s) as (l & Hl & Hs & Hst).
  destruct (rstrip_spec (lstrip s)) as (r & Hr & Hs' & Hen).
  split; [|split; [now apply rstrip_starts | exact Hen]].
  exists l, r. repeat split; try assumption.
  now rewrite <- Hs', <- Hs.
Qed.

Lemma lstrip_app_space l x :
  all_space l = true -> lstrip (l ++ x) = lstrip x.
Proof.
  induction l as [|c l IH]; simpl; [reflexivity|].
  intros H. apply andb_true_iff in H as [Hc Hl]. now rewrite Hc, IH.
Qed.

Lemma lstrip_all_space r : all_space r = true -> lstrip r = EmptyString.
Proof.
  induction r as [|c r IH]; simpl; [reflexivity|].
  intros H. apply andb_true_iff in H as [Hc Hr]. now rewrite Hc, IH.
Qed.

Lemma rstrip_all_space r : all_space r = true -> rstrip r = EmptyString.
Proof.
  induction r as [|c r IH]; simpl; [reflexivity|].
  intros H. apply andb_true_iff in H as [Hc Hr]. now rewrite IH, Hc.
Qed.

Lemma rstrip_app_space x r :
  all_space r = true -> rstrip (x ++ r) = rstrip x.
Proof.
  intros Hr. induction x as [|c x IH]; simpl.
  - now apply rstrip_all_space.
  - now rewrite IH.
Qed.

Lemma rstrip_fixed x : ends_with_space x = false -> rstrip x = x.
Proof.
  induction x as [|c x IH]; [reflexivity|]. intros H.
  destruct x as [|c' x'].
  - simpl in *. now rewrite H.
  - change (ends_with_space (String c' x') = false) in H.
    change (rstrip (String c (String c' x')))
      with (match rstrip (String c' x') with
            | EmptyString => if is_space c then EmptyString
                             else String c EmptyString
            | r => String c r
            end).
    now rewrite (IH H).
Qed.

Lemma lstrip_fixed x : starts_with_space x = false -> lstrip x = x.
Proof. destruct x as [|c x]; simpl; [reflexivity|]. now intros ->. Qed.

(** A text without white space at its ends is what [strip] returns for
    every padding of it. *)
Lemma strip_padded piece id :
  padded piece id ->
  starts_with_space id = false -> ends_with_space id = false ->
  strip piece = id.
Proof.
  intros (l & r & Hl & Hr & ->) Hst Hen. unfold strip.
  rewrite lstrip_app_space by exact Hl.
  destruct id as [|c id].
  - simpl. now rewrite (lstrip_all_space r Hr).
  - simpl in Hst. simpl. rewrite Hst.
    change (String c (id ++ r)) with (String c id ++ r)%string.
    rewrite rstrip_app_space by exact Hr. now apply rstrip_fixed.
Qed.

Lemma strip_padded_witness : strip "  B 2 " = "B 2".
Proof.
  apply strip_padded; [|reflexivity|reflexivity].
  exists "  ", " ". repeat split.
Defined.

Lemma has_comma_app a b : has_comma (a ++ b) = has_comma a || has_comma b.
Proof.
  induction a as [|c a IH]; simpl; [reflexivity|].
  now rewrite IH, orb_assoc.
Qed.

Lemma split_comma_pieces s :
  Forall (fun p => has_comma p = false) (split_comma s).
Proof.
  induction s as [|c s IH]; simpl.
  - now repeat constructor.
  - destruct (Ascii.eqb c ",") eqn:E.
    + now constructor.
    + destruct (split_comma s) as [|piece pieces].
      * repeat constructor. simpl. now rewrite E.
      * inversion IH as [|? ? Hp Hps]; subst.
        constructor; [simpl; now rewrite E, Hp | exact Hps].
Qed.

Lemma strip_comma_free s : has_comma s = false -> has_comma (strip s) = false.
Proof.
  intros H. destruct (strip_spec s) as ((l & r & _ & _ & Hs) & _).
  rewrite Hs, !has_comma_app in H.
  apply orb_false_iff in H as [_ H]. now apply orb_false_iff in H as [H _].
Qed.

(** X1. The references read from a string cell are clean, and a dependency
    written in a string cell can only lead to a row whose id is clean. *)
Theorem string_cell_references_clean t s :
  predecessorTaskIDs t = Str s ->
  (forall r, In r (pred_list t) -> clean_id r) /\
  (forall tasks p, depends_on tasks t p -> clean_id (taskID p)).
Proof.
  intros Hcell.
  assert (Hclean : forall r, In r (pred_list t) -> clean_id r).
  { intros r Hr. unfold pred_list in Hr. rewrite Hcell in Hr.
    destruct (truthy_str s); [|destruct Hr].
    apply filter_In in Hr as [Hr Hne].
    apply in_map_iff in Hr as (piece & <- & Hpiece).
    pose proof (split_comma_pieces s) as Hall.
    rewrite Forall_forall in Hall.
    destruct (strip_spec piece) as (_ & Hst & Hen).
    repeat split; try assumption.
    - intros E. now rewrite E in Hne.
    - apply strip_comma_free. now apply Hall. }
  split; [exact Hclean|].
  intros tasks p (_ & pred & Hpred & Hp).
  destruct (iloc0_loc_inr _ _ _ Hp) as [_ ->]. now apply Hclean.
Qed.

Lemma string_cell_references_clean_witness :
  pred_list (mkTask "C" (Str " B , Z,,") 1 1 1) = ["B"; "Z"] /\
  clean_id "B" /\ clean_id "Z".
Proof.
  split; [reflexivity|]. split.
  - exact (proj1 (string_cell_references_clean
                    (mkTask "C" (Str " B , Z,,") 1 1 1) " B , Z,," eq_refl)
                 "B" (or_introl eq_refl)).
  - exact (proj1 (string_cell_references_clean
                    (mkTask "C" (Str " B , Z,,") 1 1 1) " B , Z,," eq_refl)
                 "Z" (or_intror (or_introl eq_refl))).
Defined.

Lemma all_space_comma_free l : all_space l = true -> has_comma l = false.
Proof.
  induction l as [|c l IH]; simpl; [reflexivity|].
  intros H. apply andb_true_iff in H as [Hc Hl]. rewrite (IH Hl), orb_false_r.
  destruct (Ascii.eqb c ",") eqn:E; [|reflexivity].
  apply Ascii.eqb_eq in E. subst c. discriminate.
Qed.

Lemma truthy_str_app a b : truthy_str a = true -> truthy_str (a ++ b) = true.
Proof. now destruct a. Qed.

Lemma padded_clean piece id :
  padded piece id -> clean_id id ->
  has_comma piece = false /\ truthy_str piece = true.
Proof.
  intros (l & r & Hl & Hr & ->) (Hne & Hc & _). split.
  - rewrite !has_comma_app, Hc.
    now rewrite (all_space_comma_free l Hl), (all_space_comma_free r Hr).
  - destruct l; simpl; [|reflexivity]. destruct id; [now destruct Hne|].
    reflexivity.
Qed.

(** X2. A comma-separated list of clean ids, each with any white space
    around it, is read back as that list. *)
Theorem pred_list_join pieces ids id best expected worst :
  ids <> [] -> Forall clean_id ids -> Forall2 padded pieces ids ->
  pred_list (mkTask id (Str (String.concat "," pieces)) best expected worst)
  = ids.
Proof.
  intros Hne Hclean Hpad. unfold pred_list. simpl.
  assert (Hpieces : Forall (fun p => has_comma p = false) pieces /\
                    map strip pieces = ids /\ filter truthy_str ids = ids).
  { clear Hne. induction Hpad as [|piece x pieces ids Hp Hpad IH].
    - now repeat split.
    - inversion Hclean as [|? ? Hx Hids]; subst.
      destruct (IH Hids) as (H1 & H2 & H3).
      destruct (padded_clean _ _ Hp Hx) as [Hc _].
      destruct Hx as (Hxne & _ & Hst & Hen).
      split; [now constructor|]. split.
      + simpl. now rewrite (strip_padded _ _ Hp Hst Hen), H2.
      + simpl. destruct x; [now destruct Hxne|]. simpl. now rewrite H3. }
  destruct Hpieces as (Hcf & Hmap & Hfil).
  assert (Hpne : pieces <> []).
  { intros ->. inversion Hpad. now subst. }
  assert (Htruthy : truthy_str (String.concat "," pieces) = true).
  { destruct Hpad as [|piece x pieces ids Hp Hpad]; [now destruct Hpne|].
    inversion Hclean as [|? ? Hx Hids]; subst.
    destruct (padded_clean _ _ Hp Hx) as [_ Ht].
    destruct pieces; simpl; [exact Ht | now apply truthy_str_app]. }
  rewrite Htruthy, (split_join_comma pieces Hpne Hcf), Hmap. exact Hfil.
Qed.

Lemma pred_list_join_witness :
  pred_list (mkTask "C" (Str (String.concat "," ["A"; " B 2 "])) 1 1 1)
  = ["A"; "B 2"].
Proof.
  apply pred_list_join.
  - discriminate.
  - repeat constructor; discriminate.
  - constructor; [exists "", ""; now repeat split|].
    constructor; [exists " ", " "; now repeat split|]. constructor.
Defined.

Lemma all_space_app a b : all_space (a ++ b) = all_space a && all_space b.
Proof.
  induction a as [|c a IH]; simpl; [reflexivity|].
  now rewrite IH, andb_assoc.
Qed.

Lemma strip_empty_iff p : strip p = EmptyString <-> all_space p = true.
Proof.
  split.
  - intros H. destruct (strip_spec p) as ((l & r & Hl & Hr & Hp) & _).
    rewrite H in Hp. rewrite Hp, !all_space_app, Hl, Hr. reflexivity.
  - intros H. unfold strip. now rewrite (lstrip_all_space p H).
Qed.

Lemma is_space_not_comma c : is_space c = true -> Ascii.eqb c "," = false.
Proof.
  intros H. destruct (Ascii.eqb c ",") eqn:E; [|reflexivity].
  apply Ascii.eqb_eq in E. subst c. discriminate.
Qed.

Lemma split_comma_blank s :
  forallb all_space (split_comma s) = blank_cell s.
Proof.
  induction s as [|c s IH]; simpl; [reflexivity|].
  destruct (Ascii.eqb c ",") eqn:E.
  - simpl. now rewrite IH, orb_true_r.
  - rewrite orb_false_r. rewrite <- IH.
    destruct (split_comma_cons s) as (piece & pieces & Hs). rewrite Hs.
    simpl. now rewrite andb_assoc.
Qed.

Lemma no_truthy_strip pieces :
  filter truthy_str (map strip pieces) = [] <-> forallb all_space pieces = true.
Proof.
  induction pieces as [|p pieces IH]; simpl; [tauto|].
  destruct (strip p) as [|c x] eqn:E; simpl.
  - apply strip_empty_iff in E. rewrite E. simpl. exact IH.
  - split; [discriminate|]. intros H. apply andb_true_iff in H as [H _].
    apply strip_empty_iff in H. congruence.
Qed.

(** X3. A string cell gives no reference exactly when it holds nothing but
    white space and commas; the row is then treated like a row without
    predecessors. *)
Theorem blank_cell_no_references id s best expected worst :
  pred_list (mkTask id (Str s) best expected worst) = [] <->
  blank_cell s = true.
Proof.
  unfold pred_list. simpl. destruct s as [|c s]; [simpl; tauto|].
  change (truthy_str (String c s)) with true. cbv iota.
  rewrite no_truthy_strip. now rewrite split_comma_blank.
Qed.

(** ** References accounted for *)

Lemma length_flat_map {A B : Type} (f : A -> list B) (l : list A) :
  List.length (flat_map f l) = list_sum (map (fun x => List.length (f x)) l).
Proof.
  induction l as [|x l IH]; simpl; [reflexivity|].
  now rewrite length_app, IH.
Qed.

Lemma length_pred_constraints tasks task_id preds :
  List.length (flat_map (pred_constraint tasks task_id) preds)
  = List.length (filter (resolves tasks) preds).
Proof.
  induction preds as [|r preds IH]; simpl; [reflexivity|].
  rewrite length_app, IH, resolves_iloc0. unfold pred_constraint.
  now destruct (iloc0 (loc_taskID tasks r)).
Qed.

Lemma filter_split_length {A : Type} (f : A -> bool) (l : list A) :
  (List.length (filter f l) + List.length (filter (fun x => negb (f x)) l)
   = List.length l)%nat.
Proof.
  induction l as [|x l IH]; simpl; [reflexivity|].
  destruct (f x); simpl; lia.
Qed.

Lemma count_constraints tasks ts :
  List.length (flat_map (task_constraints tasks) ts)
  = (List.length ts + count_over (resolved_preds tasks) ts)%nat.
Proof.
  unfold count_over, resolved_preds.
  induction ts as [|t ts IH]; simpl; [reflexivity|].
  rewrite length_app, IH. unfold task_constraints.
  rewrite length_app, length_pred_constraints. simpl. lia.
Qed.

Lemma count_split tasks ts :
  (count_over (resolved_preds tasks) ts + count_over (unresolved_preds tasks) ts
   = count_over pred_list ts)%nat.
Proof.
  unfold count_over, resolved_preds, unresolved_preds.
  induction ts as [|t ts IH]; simpl; [reflexivity|].
  pose proof (filter_split_length (resolves tasks) (pred_list t)). lia.
Qed.

(** X4. Every reference of every row ends as one constraint or as one
    printed warning; besides, each row adds one constraint for its
    completion. *)
Theorem references_accounted_for LpStatus solve tasks_df :
  let tasks := rows tasks_df in
  let printed := snd (fst (optimize_project_schedule LpStatus solve tasks_df)) in
  List.length (lp_constraints (build_problem tasks))
  = (List.length tasks + count_over (resolved_preds tasks) tasks)%nat /\
  List.length printed = count_over (unresolved_preds tasks) tasks /\
  (List.length (lp_constraints (build_problem tasks)) + List.length printed
   = List.length tasks + count_over pred_list tasks)%nat.
Proof.
  intros tasks printed.
  assert (H1 : List.length (lp_constraints (build_problem tasks))
               = (List.length tasks + count_over (resolved_preds tasks) tasks)%nat).
  { unfold build_problem. simpl. rewrite build_loop_closed. simpl.
    apply count_constraints. }
  assert (H2 : List.length printed = count_over (unresolved_preds tasks) tasks).
  { unfold printed. rewrite optimize_printed. fold tasks.
    rewrite length_flat_map. unfold count_over. f_equal.
    apply map_ext. intros t. rewrite task_warnings_unresolved.
    unfold unresolved_preds. now rewrite length_map. }
  split; [exact H1|]. split; [exact H2|].
  rewrite H1, H2. pose proof (count_split tasks tasks). lia.
Qed.

(** ** The two views of a result *)

Lemma keys_dict_set d k v :
  map fst (dict_set d k v) =
  if existsb (String.eqb k) (map fst d) then map fst d else map fst d ++ [k].
Proof.
  induction d as [|[k0 v0] d IH]; simpl; [reflexivity|].
  rewrite (String.eqb_sym k k0).
  destruct (String.eqb k0 k) eqn:E; simpl.
  - apply String.eqb_eq in E. now subst.
  - rewrite IH. now destruct (existsb _ _).
Qed.

Lemma existsb_eqb_in k l : existsb (String.eqb k) l = true <-> In k l.
Proof.
  rewrite existsb_exists. split.
  - intros (x & Hx & E). apply String.eqb_eq in E. now subst.
  - intros H. exists k. split; [exact H | apply String.eqb_refl].
Qed.

Lemma keys_schedule_of sol ids d :
  NoDup (map fst d) ->
  NoDup (map fst (schedule_of sol ids d)) /\
  forall k, In k (map fst (schedule_of sol ids d)) <->
            In k (map fst d) \/ In k ids.
Proof.
  unfold schedule_of. revert d.
  induction ids as [|i ids IH]; intros d Hnd; simpl.
  - split; [exact Hnd|]. intros k. tauto.
  - set (d' := dict_set d i (start_value sol i)).
    assert (Hk : forall k, In k (map fst d') <-> In k (map fst d) \/ i = k).
    { intros k. unfold d'. rewrite keys_dict_set.
      destruct (existsb _ _) eqn:E.
      - apply existsb_eqb_in in E. split; [tauto|].
        intros [H| <-]; assumption.
      - rewrite in_app_iff. simpl. tauto. }
    assert (Hnd' : NoDup (map fst d')).
    { unfold d'. rewrite keys_dict_set.
      destruct (existsb _ _) eqn:E; [exact Hnd|].
      apply NoDup_app; [exact Hnd | repeat constructor; intros [] |].
      intros k Hin [<-|[]].
      apply existsb_eqb_in in Hin. congruence. }
    destruct (IH d' Hnd') as [H1 H2]. split; [exact H1|].
    intros k. rewrite H2, Hk. tauto.
Qed.

(** X5. In a returned result the status is the name of status 1;
    [task_details] has one entry per row, in the order of the rows; the keys of [schedule] are the ids of the rows, each
    once; and every entry starts at the time [schedule] gives for its id,
    which is not negative. *)
Theorem result_views_agree LpStatus solve tasks_df df' printed res :
  pulp_contract (build_problem (rows tasks_df))
                (solve (build_problem (rows tasks_df))) ->
  optimize_project_schedule LpStatus solve tasks_df = (df', printed, inr res) ->
  status res = LpStatus 1%Z /\
  map res_taskID (task_details res) = map taskID (rows tasks_df) /\
  NoDup (map fst (schedule res)) /\
  (forall k, In k (map fst (schedule res)) <-> In k (map taskID (rows tasks_df))) /\
  (forall d, In d (task_details res) ->
     dict_get (schedule res) (res_taskID d) = Some (start_time d) /\
     0 <= start_time d /\
     end_time d = start_time d + res_pert_duration d).
Proof.
  intros [Hsound _] Hrun.
  destruct (details_of_result _ _ _ _ _ _ Hrun) as (Hst & _ & Hdet & Hsch).
  destruct (Hsound Hst) as [(Hpos & _) _].
  split.
  { rewrite (optimize_success LpStatus solve tasks_df Hst) in Hrun.
    now injection Hrun as _ _ <-. }
  rewrite Hdet, Hsch. split; [|split; [|split]].
  - rewrite map_map. reflexivity.
  - apply keys_schedule_of. constructor.
  - intros k. destruct (keys_schedule_of
                          (solve (build_problem (rows tasks_df)))
                          (map taskID (rows tasks_df)) [] (NoDup_nil _))
      as [_ H]. rewrite H. simpl. tauto.
  - intros d Hd. apply in_map_iff in Hd as (t & <- & Ht). simpl.
    split; [|split; [|reflexivity]].
    + apply dict_get_schedule_of. now apply in_map.
    + apply Hpos. simpl. now apply in_map.
Qed.

Lemma result_views_agree_witness :
  map res_taskID
      (map (detail_of (rows chain_frame)
              (chain_solve (build_problem (rows chain_frame))))
           (rows chain_frame))
  = ["A"; "B"; "C"].
Proof.
  exact (proj1 (proj2
    (result_views_agree pulp_LpStatus chain_solve chain_frame _ _ _
       chain_contract eq_refl))).
Defined.

(** X6. Rows that share an id get identical entries, which report the
    estimates of the first row of that id. *)
Theorem shared_id_reports_first_row LpStatus solve tasks_df df' printed res :
  optimize_project_schedule LpStatus solve tasks_df = (df', printed, inr res) ->
  (forall d d', In d (task_details res) -> In d' (task_details res) ->
                res_taskID d = res_taskID d' -> d = d') /\
  (forall d, In d (task_details res) ->
     exists first,
       iloc0 (loc_taskID (rows tasks_df) (res_taskID d)) = inr first /\
       best_case d = bestCaseHours first /\
       expected_case d = expectedHours first /\
       worst_case d = worstCaseHours first /\
       res_pert_duration d = pert_duration first).
Proof.
  intros Hrun.
  destruct (details_of_result _ _ _ _ _ _ Hrun) as (_ & _ & Hdet & _).
  rewrite Hdet. split.
  - intros d d' Hd Hd' E.
    apply in_map_iff in Hd as (t & <- & Ht).
    apply in_map_iff in Hd' as (t' & <- & Ht').
    simpl in E. destruct (iloc0_loc_member _ _ Ht') as [first Hfirst].
    unfold detail_of. now rewrite E, Hfirst.
  - intros d Hd. apply in_map_iff in Hd as (t & <- & Ht).
    destruct (iloc0_loc_member _ _ Ht) as [first Hfirst].
    exists first. unfold detail_of. simpl. rewrite Hfirst. now repeat split.
Qed.

(** Two rows with the id A: 2 hours first, then 10 hours; the entry of the
    second row reports the 2 hours of the first. *)
Lemma shared_id_reports_first_row_witness :
  exists first,
    iloc0 (loc_taskID [mkTask "A" Missing 2 2 2; mkTask "A" Missing 10 10 10]
             "A") = inr first /\
    best_case
      (detail_of [mkTask "A" Missing 2 2 2; mkTask "A" Missing 10 10 10]
         (table_solution 1 [("A", 0)] 10) (mkTask "A" Missing 10 10 10))
    = bestCaseHours first /\
    expected_case
      (detail_of [mkTask "A" Missing 2 2 2; mkTask "A" Missing 10 10 10]
         (table_solution 1 [("A", 0)] 10) (mkTask "A" Missing 10 10 10))
    = expectedHours first /\
    worst_case
      (detail_of [mkTask "A" Missing 2 2 2; mkTask "A" Missing 10 10 10]
         (table_solution 1 [("A", 0)] 10) (mkTask "A" Missing 10 10 10))
    = worstCaseHours first /\
    res_pert_duration
      (detail_of [mkTask "A" Missing 2 2 2; mkTask "A" Missing 10 10 10]
         (table_solution 1 [("A", 0)] 10) (mkTask "A" Missing 10 10 10))
    = pert_duration first.
Proof.
  exact (proj2
    (shared_id_reports_first_row pulp_LpStatus
       (fun _ => table_solution 1 [("A", 0)] 10)
       (mkFrame [mkTask "A" Missing 2 2 2; mkTask "A" Missing 10 10 10] None)
       _ _ _ eq_refl)
    (detail_of [mkTask "A" Missing 2 2 2; mkTask "A" Missing 10 10 10]
       (table_solution 1 [("A", 0)] 10) (mkTask "A" Missing 10 10 10))
    (or_intror (or_introl eq_refl))).
Defined.

(** ** The total project duration *)

Lemma scheduled_start_value LpStatus solve tasks_df df' printed res t :
  optimize_project_schedule LpStatus solve tasks_df = (df', printed, inr res) ->
  In t (rows tasks_df) ->
  scheduled_start res (taskID t)
  = start_value (solve (build_problem (rows tasks_df))) (taskID t).
Proof.
  intros Hrun Ht.
  destruct (details_of_result _ _ _ _ _ _ Hrun) as (_ & _ & _ & Hsch).
  unfold scheduled_start. rewrite Hsch.
  rewrite dict_get_schedule_of; [reflexivity | now apply in_map].
Qed.

Lemma series_max_le x xs b :
  (forall y, In y (x :: xs) -> y <= b) -> series_max x xs <= b.
Proof.
  intros H. destruct (series_max_attained x xs) as (y & Hy & ->).
  now apply H.
Qed.

Lemma series_max_ext {A : Type} (f g : A -> Q) x l :
  (forall a, In a l -> f a = g a) ->
  series_max x (map f l) = series_max x (map g l).
Proof.
  intros H. f_equal. apply map_ext_in. exact H.
Qed.

(** X7. The total project duration of a returned result is the largest
    completion time of a row (its scheduled start plus its own PERT
    duration), or 0 if that is larger; it is never negative. *)
Theorem total_is_largest_completion LpStatus solve tasks_df df' printed res :
  pulp_contract (build_problem (rows tasks_df))
                (solve (build_problem (rows tasks_df))) ->
  optimize_project_schedule LpStatus solve tasks_df = (df', printed, inr res) ->
  total_project_duration res
  == series_max 0 (map (completion res) (rows tasks_df)) /\
  0 <= total_project_duration res /\
  (forall t, In t (rows tasks_df) ->
             completion res t <= total_project_duration res).
Proof.
  intros Hc Hrun.
  destruct (details_of_result _ _ _ _ _ _ Hrun) as (Hst & Htot & _ & _).
  destruct Hc as [Hsound _]. destruct (Hsound Hst) as [Hfeas Hopt].
  apply lp_feasible_schedule in Hfeas.
  destruct Hfeas as (Hpos & HT & Hprec & Hend).
  set (sol := solve (build_problem (rows tasks_df))) in *.
  assert (Hcompl : forall t, In t (rows tasks_df) ->
            completion res t = start_value sol (taskID t) + pert_duration t).
  { intros t Ht. unfold completion.
    now rewrite (scheduled_start_value _ _ _ _ _ _ _ Hrun Ht). }
  rewrite (series_max_ext _ _ 0 _ Hcompl), Htot.
  split; [|split; [exact HT|]].
  - apply Qle_antisym.
    + apply (Hopt (start_value sol)). apply lp_feasible_schedule.
      repeat split; [exact Hpos | apply series_max_ge_head | exact Hprec |].
      intros t Ht. apply series_max_ge. right.
      apply in_map_iff. now exists t.
    + apply series_max_le. intros y [<-|Hy]; [exact HT|].
      apply in_map_iff in Hy as (t & <- & Ht). now apply Hend.
  - intros t Ht. rewrite (Hcompl t Ht). now apply Hend.
Qed.

Lemma total_is_largest_completion_witness :
  7 == series_max 0
         (map (completion
                 {| status := "Optimal";
                    total_project_duration := 7;
                    schedule := [("A", 0); ("B", 2); ("C", 6)];
                    task_details :=
                      map (detail_of (rows chain_frame)
                             (chain_solve (build_problem (rows chain_frame))))
                          (rows chain_frame) |})
              (rows chain_frame)).
Proof.
  exact (proj1
    (total_is_largest_completion pulp_LpStatus chain_solve chain_frame _ _ _
       chain_contract eq_refl)).
Defined.

Lemma dependency_path_rows tasks p t w :
  dependency_path tasks p t w -> In p tasks /\ In t tasks.
Proof.
  induction 1 as [p t Hd|p q t w Hd _ [_ IH]].
  - destruct Hd as (Ht & pred & _ & Hp).
    split; [now destruct (iloc0_loc_inr _ _ _ Hp) | exact Ht].
  - destruct Hd as (_ & pred & _ & Hp).
    split; [now destruct (iloc0_loc_inr _ _ _ Hp) | exact IH].
Qed.

(** X8. The total project duration is at least the length of every chain of
    dependencies: the PERT durations of the tasks on a path, the last task
    included, add up to no more than it. *)
Theorem total_covers_every_chain
    LpStatus solve tasks_df df' printed res p t w :
  pulp_contract (build_problem (rows tasks_df))
                (solve (build_problem (rows tasks_df))) ->
  optimize_project_schedule LpStatus solve tasks_df = (df', printed, inr res) ->
  dependency_path (rows tasks_df) p t w ->
  w + pert_duration t <= total_project_duration res /\
  scheduled_start res (taskID p) + w <= scheduled_start res (taskID t).
Proof.
  intros Hc Hrun Hpath.
  destruct (details_of_result _ _ _ _ _ _ Hrun) as (Hst & Htot & _ & _).
  destruct (dependency_path_rows _ _ _ _ Hpath) as [Hp Ht].
  rewrite (scheduled_start_value _ _ _ _ _ _ _ Hrun Hp),
          (scheduled_start_value _ _ _ _ _ _ _ Hrun Ht), Htot.
  destruct Hc as [Hsound _]. destruct (Hsound Hst) as [Hfeas _].
  apply lp_feasible_schedule in Hfeas.
  pose proof (dependency_path_bound _ _ _ _ _ _ Hfeas Hpath) as Hb.
  destruct Hfeas as (Hpos & _ & _ & Hend).
  pose proof (Hpos p Hp). pose proof (Hend t Ht). split; lra.
Qed.

Lemma chain_path :
  dependency_path (rows chain_frame) task_A task_C
    (pert_duration task_A + pert_duration task_B).
Proof.
  apply path_step with (q := task_B).
  - split; [right; now left|]. exists "A". split; [now left | reflexivity].
  - apply path_edge. split; [right; right; now left|].
    exists "B". split; [now left | reflexivity].
Qed.

Lemma total_covers_every_chain_witness :
  pert_duration task_A + pert_duration task_B + pert_duration task_C <= 7.
Proof.
  exact (proj1
    (total_covers_every_chain pulp_LpStatus chain_solve chain_frame _ _ _
       task_A task_C _ chain_contract eq_refl chain_path)).
Defined.

(** X9. The call returns a result only for a table whose bounds can be
    met: the start times and the total of a returned result themselves
    meet every bound of the table; so for a table whose bounds no
    assignment meets no result is returned. *)
Theorem result_only_if_schedulable LpStatus solve tasks_df :
  pulp_contract (build_problem (rows tasks_df))
                (solve (build_problem (rows tasks_df))) ->
  (forall res,
     snd (optimize_project_schedule LpStatus solve tasks_df) = inr res ->
     schedule_feasible (rows tasks_df) (scheduled_start res)
                       (total_project_duration res)) /\
  ((forall s T, ~ schedule_feasible (rows tasks_df) s T) ->
   forall res,
     snd (optimize_project_schedule LpStatus solve tasks_df) <> inr res).
Proof.
  intros [Hsound _].
  assert (H : forall res,
            snd (optimize_project_schedule LpStatus solve tasks_df) = inr res ->
            schedule_feasible (rows tasks_df) (scheduled_start res)
                              (total_project_duration res)).
  { intros res Hres.
    destruct (optimize_project_schedule LpStatus solve tasks_df)
      as [[df' printed] out] eqn:Hrun. simpl in Hres. subst out.
    destruct (details_of_result _ _ _ _ _ _ Hrun) as (Hst & Htot & _ & _).
    destruct (Hsound Hst) as [Hfeas _].
    apply lp_feasible_schedule in Hfeas.
    destruct Hfeas as (Hpos & HT & Hprec & Hend).
    rewrite Htot. repeat split; [| exact HT | |].
    - intros t Ht.
      rewrite (scheduled_start_value _ _ _ _ _ _ _ Hrun Ht). now apply Hpos.
    - intros t pred row Ht Hpred Hrow.
      destruct (iloc0_loc_inr _ _ _ Hrow) as [Hrin _].
      rewrite (scheduled_start_value _ _ _ _ _ _ _ Hrun Ht),
              (scheduled_start_value _ _ _ _ _ _ _ Hrun Hrin).
      now apply (Hprec t pred row).
    - intros t Ht.
      rewrite (scheduled_start_value _ _ _ _ _ _ _ Hrun Ht). now apply Hend. }
  split; [exact H|].
  intros Hnone res Hres. exact (Hnone _ _ (H res Hres)).
Qed.

Lemma result_only_if_schedulable_witness :
  schedule_feasible (rows chain_frame)
    (scheduled_start
       {| status := "Optimal";
          total_project_duration := 7;
          schedule := [("A", 0); ("B", 2); ("C", 6)];
          task_details :=
            map (detail_of (rows chain_frame)
                   (chain_solve (build_problem (rows chain_frame))))
                (rows chain_frame) |})
    7.
Proof.
  exact (proj1 (result_only_if_schedulable pulp_LpStatus chain_solve
                  chain_frame chain_contract) _ eq_refl).
Defined.

(** X10. When no reference of the table resolves, the total project
    duration of a returned result is the longest PERT duration of a row, or
    0 if that is larger. *)
Theorem independent_tasks_total LpStatus solve tasks_df df' printed res :
  pulp_contract (build_problem (rows tasks_df))
                (solve (build_problem (rows tasks_df))) ->
  (forall t, In t (rows tasks_df) -> resolved_preds (rows tasks_df) t = []) ->
  optimize_project_schedule LpStatus solve tasks_df = (df', printed, inr res) ->
  total_project_duration res == longest (rows tasks_df).
Proof.
  intros [Hsound _] Hnone Hrun.
  assert (Hno : forall t pred row,
             In t (rows tasks_df) -> In pred (pred_list t) ->
             iloc0 (loc_taskID (rows tasks_df) pred) = inr row -> False).
  { intros t pred row Ht Hpred Hrow.
    assert (Hin : In pred (resolved_preds (rows tasks_df) t)).
    { apply filter_In. split; [exact Hpred|].
      rewrite resolves_iloc0. now rewrite Hrow. }
    rewrite (Hnone t Ht) in Hin. destruct Hin. }
  assert (Hfeas : schedule_feasible (rows tasks_df) (fun _ => 0)
                    (longest (rows tasks_df))).
  { repeat split.
    - intros; apply Qle_refl.
    - apply series_max_ge_head.
    - intros t pred row Ht Hpred Hrow. destruct (Hno t pred row Ht Hpred Hrow).
    - intros t Ht. rewrite Qplus_0_l. apply series_max_ge. right.
      now apply in_map. }
  destruct (details_of_result _ _ _ _ _ _ Hrun) as (Hst & Htot & _ & _).
  rewrite Htot. destruct (Hsound Hst) as [Hsol Hopt].
  apply lp_feasible_schedule in Hsol. destruct Hsol as (Hpos & HT & _ & Hend).
  apply Qle_antisym.
  - apply (Hopt (fun _ => 0)). now apply lp_feasible_schedule.
  - apply series_max_le. intros y [<-|Hy]; [exact HT|].
    apply in_map_iff in Hy as (t & <- & Ht).
    pose proof (Hpos t Ht). pose proof (Hend t Ht). lra.
Qed.

Lemma independent_tasks_total_witness : 2 == longest (rows tie_frame).
Proof.
  refine (independent_tasks_total pulp_LpStatus tie_solve tie_frame _ _ _
            tie_contract _ eq_refl).
  intros t Ht. in_cases Ht; subst t; reflexivity.
Defined.

(** ** Tables compared *)

Lemma Forall2_in_left {A B : Type} (R : A -> B -> Prop) l l' x :
  Forall2 R l l' -> In x l -> exists y, In y l' /\ R x y.
Proof.
  induction 1 as [|a b l l' Hab _ IH]; intros Hin; [destruct Hin|].
  destruct Hin as [<-|Hin].
  - exists b. split; [now left | exact Hab].
  - destruct (IH Hin) as (y & Hy & Hxy). exists y. split; [now right | exact Hxy].
Qed.

Lemma fewer_dependencies_numbers tasks tasks' :
  fewer_dependencies tasks tasks' -> Forall2 same_numbers tasks tasks'.
Proof.
  intros H. eapply Forall2_impl; [|exact H]. now intros t t' [Hn _].
Qed.

Lemma fewer_dependencies_feasible tasks tasks' s T :
  fewer_dependencies tasks tasks' ->
  schedule_feasible tasks' s T -> schedule_feasible tasks s T.
Proof.
  intros Hfew (Hpos & HT & Hprec & Hend).
  pose proof (fewer_dependencies_numbers _ _ Hfew) as Hn.
  repeat split; [| exact HT | |].
  - intros t Ht.
    destruct (Forall2_in_left _ _ _ _ Hfew Ht) as (t' & Ht' & [(Hid & _) _]).
    rewrite Hid. now apply Hpos.
  - intros t pred row Ht Hpred Hrow.
    destruct (Forall2_in_left _ _ _ _ Hfew Ht) as (t' & Ht' & [(Hid & _) Hincl]).
    assert (Hres : In pred (resolved_preds tasks t)).
    { apply filter_In. split; [exact Hpred|].
      rewrite resolves_iloc0. now rewrite Hrow. }
    apply Hincl in Hres. apply filter_In in Hres as [Hpred' _].
    pose proof (loc_same_numbers _ _ pred Hn) as Hloc. rewrite Hrow in Hloc.
    destruct (iloc0 (loc_taskID tasks' pred)) as [e|row'] eqn:Hrow';
      [destruct Hloc|].
    rewrite (same_numbers_pert _ _ Hloc). destruct Hloc as (Hrid & _).
    rewrite Hrid, Hid. exact (Hprec t' pred row' Ht' Hpred' Hrow').
  - intros t Ht.
    destruct (Forall2_in_left _ _ _ _ Hfew Ht) as (t' & Ht' & [Hnum _]).
    rewrite (same_numbers_pert _ _ Hnum). destruct Hnum as (Hid & _).
    rewrite Hid. now apply Hend.
Qed.

(** X11. Dependencies can only lengthen the project: if a table is
    scheduled, so is the table with the same rows and fewer resolved
    references, and its total project duration is not larger. *)
Theorem fewer_dependencies_not_longer LpStatus solve tasks_df tasks_df' res' :
  pulp_contract (build_problem (rows tasks_df))
                (solve (build_problem (rows tasks_df))) ->
  pulp_contract (build_problem (rows tasks_df'))
                (solve (build_problem (rows tasks_df'))) ->
  fewer_dependencies (rows tasks_df) (rows tasks_df') ->
  snd (optimize_project_schedule LpStatus solve tasks_df') = inr res' ->
  exists res,
    snd (optimize_project_schedule LpStatus solve tasks_df) = inr res /\
    total_project_duration res <= total_project_duration res'.
Proof.
  intros [Hsound Hcomplete] [Hsound' _] Hfew Hrun'.
  destruct (optimize_project_schedule LpStatus solve tasks_df')
    as [[df1 printed1] out1] eqn:Hopt'. simpl in Hrun'. subst out1.
  destruct (details_of_result _ _ _ _ _ _ Hopt') as (Hst' & Htot' & _ & _).
  destruct (Hsound' Hst') as [Hfeas' _].
  apply lp_feasible_schedule in Hfeas'.
  pose proof (fewer_dependencies_feasible _ _ _ _ Hfew Hfeas') as Hfeas.
  apply lp_feasible_schedule in Hfeas.
  assert (Hst : sol_status (solve (build_problem (rows tasks_df))) = 1%Z).
  { apply Hcomplete. eexists; eexists; exact Hfeas. }
  rewrite (optimize_success LpStatus solve tasks_df Hst).
  eexists. split; [reflexivity|]. simpl. rewrite Htot'.
  destruct (Hsound Hst) as [_ Hopt]. exact (Hopt _ _ Hfeas).
Qed.

Lemma plain_fewer_than_chain :
  fewer_dependencies [task_A; mkTask "B" Missing 2 4 6; task_C]
                     (rows chain_frame).
Proof.
  unfold fewer_dependencies. simpl.
  repeat (apply Forall2_cons || apply Forall2_nil);
    (split; [now repeat split|]); intros x Hx;
    vm_compute in Hx |- *; tauto.
Qed.

Lemma loose_contract :
  pulp_contract
    (build_problem [task_A; mkTask "B" Missing 2 4 6; task_C])
    (table_solution 1 [("A", 0); ("B", 0); ("C", 4)] 5).
Proof.
  unfold pulp_contract, lp_feasible.
  change (lp_constraints
            (build_problem [task_A; mkTask "B" Missing 2 4 6; task_C]))
    with [Completion "A" (12 # 6); Completion "B" (24 # 6);
          StartAfter "C" "B" (24 # 6); Completion "C" (6 # 6)].
  split; [intros _; repeat split | intros _; reflexivity].
  - intros v Hv. in_cases Hv; subst v; vm_compute; discriminate.
  - vm_compute; discriminate.
  - repeat constructor; vm_compute; discriminate.
  - intros s T (Hv & _ & Hc). forall_inv. simpl in *.
    assert (0 <= s "B") by (apply Hv; right; now left). lra.
Qed.

Lemma fewer_dependencies_not_longer_witness :
  exists res,
    snd (optimize_project_schedule pulp_LpStatus loose_solve
           (mkFrame [task_A; mkTask "B" Missing 2 4 6; task_C] None))
    = inr res /\
    total_project_duration res <= 7.
Proof.
  exact (fewer_dependencies_not_longer pulp_LpStatus loose_solve
           (mkFrame [task_A; mkTask "B" Missing 2 4 6; task_C] None)
           chain_frame _ loose_contract chain_contract
           plain_fewer_than_chain eq_refl).
Defined.

Lemma loc_distinct tasks pred row :
  NoDup (map taskID tasks) ->
  iloc0 (loc_taskID tasks pred) = inr row <->
  In row tasks /\ taskID row = pred.
Proof.
  intros Hnd. split; [apply iloc0_loc_inr|].
  intros [Hin <-]. now apply iloc0_loc_self.
Qed.

Lemma permuted_feasible tasks tasks' s T :
  Permutation tasks tasks' -> NoDup (map taskID tasks) ->
  schedule_feasible tasks s T -> schedule_feasible tasks' s T.
Proof.
  intros Hperm Hnd (Hpos & HT & Hprec & Hend).
  assert (Hnd' : NoDup (map taskID tasks')).
  { eapply Permutation_NoDup; [|exact Hnd]. now apply Permutation_map. }
  assert (Hin : forall t, In t tasks' -> In t tasks).
  { intros t. apply Permutation_in. now apply Permutation_sym. }
  repeat split; [| exact HT | |].
  - intros t Ht. apply Hpos. now apply Hin.
  - intros t pred row Ht Hpred Hrow.
    apply (loc_distinct _ _ _ Hnd') in Hrow as [Hrin Hrid].
    apply (Hprec t pred row); [now apply Hin | exact Hpred|].
    apply (loc_distinct _ _ _ Hnd). split; [now apply Hin | exact Hrid].
  - intros t Ht. apply Hend. now apply Hin.
Qed.

(** X12. With distinct ids the order of the rows does not matter to the
    total project duration: a table scheduled in one order is scheduled in
    every other order, with the same total. *)
Theorem row_order_keeps_total LpStatus solve tasks_df tasks_df' res :
  pulp_contract (build_problem (rows tasks_df))
                (solve (build_problem (rows tasks_df))) ->
  pulp_contract (build_problem (rows tasks_df'))
                (solve (build_problem (rows tasks_df'))) ->
  Permutation (rows tasks_df) (rows tasks_df') ->
  NoDup (map taskID (rows tasks_df)) ->
  snd (optimize_project_schedule LpStatus solve tasks_df) = inr res ->
  exists res',
    snd (optimize_project_schedule LpStatus solve tasks_df') = inr res' /\
    total_project_duration res' == total_project_duration res.
Proof.
  intros [Hsound _] [Hsound' Hcomplete'] Hperm Hnd Hrun.
  destruct (optimize_project_schedule LpStatus solve tasks_df)
    as [[df1 printed1] out1] eqn:Hopt. simpl in Hrun. subst out1.
  destruct (details_of_result _ _ _ _ _ _ Hopt) as (Hst & Htot & _ & _).
  destruct (Hsound Hst) as [Hfeas Hbest].
  apply lp_feasible_schedule in Hfeas.
  pose proof (permuted_feasible _ _ _ _ Hperm Hnd Hfeas) as Hfeas'.
  apply lp_feasible_schedule in Hfeas'.
  assert (Hst' : sol_status (solve (build_problem (rows tasks_df'))) = 1%Z).
  { apply Hcomplete'. eexists; eexists; exact Hfeas'. }
  rewrite (optimize_success LpStatus solve tasks_df' Hst').
  eexists. split; [reflexivity|]. simpl. rewrite Htot.
  destruct (Hsound' Hst') as [Hsol' Hbest'].
  apply Qle_antisym.
  - exact (Hbest' _ _ Hfeas').
  - apply lp_feasible_schedule in Hsol'.
    assert (Hnd' : NoDup (map taskID (rows tasks_df'))).
    { eapply Permutation_NoDup; [|exact Hnd]. now apply Permutation_map. }
    pose proof (permuted_feasible _ _ _ _ (Permutation_sym Hperm) Hnd' Hsol')
      as Hback.
    apply lp_feasible_schedule in Hback. exact (Hbest _ _ Hback).
Qed.

Lemma reversed_contract :
  pulp_contract (build_problem [task_C; task_B; task_A])
                (chain_solve (build_problem [task_C; task_B; task_A])).
Proof.
  unfold pulp_contract, lp_feasible.
  change (lp_constraints (build_problem [task_C; task_B; task_A]))
    with [StartAfter "C" "B" (24 # 6); Completion "C" (6 # 6);
          StartAfter "B" "A" (12 # 6); Completion "B" (24 # 6);
          Completion "A" (12 # 6)].
  split; [intros _; repeat split | intros _; reflexivity].
  - intros v Hv. in_cases Hv; subst v; vm_compute; discriminate.
  - vm_compute; discriminate.
  - repeat constructor; vm_compute; discriminate.
  - intros s T (Hv & _ & Hc). forall_inv. simpl in *.
    assert (0 <= s "A") by (apply Hv; right; right; now left). lra.
Qed.

Lemma row_order_keeps_total_witness :
  exists res',
    snd (optimize_project_schedule pulp_LpStatus chain_solve
           (mkFrame [task_C; task_B; task_A] None)) = inr res' /\
    total_project_duration res' == 7.
Proof.
  refine (row_order_keeps_total pulp_LpStatus chain_solve chain_frame
            (mkFrame [task_C; task_B; task_A] None) _
            chain_contract reversed_contract _ chain_distinct eq_refl).
  simpl. apply Permutation_rev with (l := [task_A; task_B; task_C]).
Defined.

(** ** The analyzer *)

(** X13. On a table without rows the analyzer raises [KeyError] for
    ['end_time'], although the solver returns a result for it. *)
Theorem analyzer_empty_table_key_error LpStatus solve sort_values col :
  pulp_contract (build_problem []) (solve (build_problem [])) ->
  snd (analyze_project_schedule LpStatus solve sort_values (mkFrame [] col))
  = inl (KeyError "end_time") /\
  exists res,
    snd (optimize_project_schedule LpStatus solve (mkFrame [] col)) = inr res.
Proof.
  intros [_ Hcomplete].
  assert (Hst : sol_status (solve (build_problem
                  (rows (mkFrame [] col)))) = 1%Z).
  { apply Hcomplete. exists (fun _ => 0), 0.
    repeat split; simpl; [intros v [] | lra | constructor]. }
  unfold analyze_project_schedule.
  rewrite (optimize_success LpStatus solve (mkFrame [] col) Hst).
  split; [reflexivity | eexists; reflexivity].
Qed.

Lemma analyzer_empty_table_key_error_witness :
  snd (analyze_project_schedule pulp_LpStatus empty_solve sort_ties_kept
         (mkFrame [] None))
  = inl (KeyError "end_time").
Proof.
  exact (proj1 (analyzer_empty_table_key_error pulp_LpStatus empty_solve
                  sort_ties_kept None empty_contract)).
Defined.

(** X14. The analyzer returns an analysis exactly when the solver returns a
    result and the table has a row.  The analysis then has one row per row
    of the table, repeats the solver's total project duration, and its
    status is the name of status 1; the frame is left and the lines are
    printed as by the solver. *)
Theorem analysis_outcome LpStatus solve sort_values tasks_df :
  sort_contract sort_values ->
  let run := optimize_project_schedule LpStatus solve tasks_df in
  let analyzed :=
    analyze_project_schedule LpStatus solve sort_values tasks_df in
  fst analyzed = fst run /\
  ((exists an, snd analyzed = inr an) <->
   (rows tasks_df <> [] /\ exists res, snd run = inr res)) /\
  (forall e, snd run = inl e -> snd analyzed = inl e) /\
  (forall an, snd analyzed = inr an ->
     exists res, snd run = inr res /\
       an_total_project_duration an = total_project_duration res /\
       optimization_status an = LpStatus 1%Z /\
       List.length (an_schedule an) = List.length (rows tasks_df)).
Proof.
  intros Hsort run analyzed. unfold analyzed, run, analyze_project_schedule.
  destruct (optimize_project_schedule LpStatus solve tasks_df)
    as [[df1 printed1] [e|res]] eqn:Hopt; cbn [fst snd].
  - split; [reflexivity|]. split; [|split].
    + split; [intros [an H]; discriminate | intros [_ [res H]]; discriminate].
    + intros e' H. now injection H as <-.
    + intros an H; discriminate.
  - pose proof (optimize_inr _ _ _ _ _ _ Hopt) as Hst.
    rewrite (optimize_success LpStatus solve tasks_df Hst) in Hopt.
    injection Hopt as _ _ <-.
    unfold analyze_details. cbn [task_details status total_project_duration].
    destruct (rows tasks_df) as [|t ts]; cbn [map].
    + split; [reflexivity|]. split; [|split].
      * split; [intros [an H]; discriminate | now intros [H _]].
      * intros e H; discriminate.
      * intros an H; discriminate.
    + split; [reflexivity|]. split; [|split].
      * split; [intros _; split; [discriminate | eexists; reflexivity]|].
        intros _. eexists; reflexivity.
      * intros e H; discriminate.
      * intros an H. injection H as <-. eexists. split; [reflexivity|].
        cbn [an_total_project_duration optimization_status an_schedule
             total_project_duration].
        repeat split.
        match goal with
        | |- List.length (sort_values ?l) = _ =>
            destruct (Hsort l) as [Hperm _];
            rewrite <- (Permutation_length Hperm)
        end.
        unfold with_float. cbn [map List.length]. now rewrite !length_map.
Qed.

Lemma analysis_outcome_witness :
  (exists an,
     snd (analyze_project_schedule pulp_LpStatus chain_solve sort_ties_kept
            chain_frame) = inr an) <->
  (rows chain_frame <> [] /\
   exists res,
     snd (optimize_project_schedule pulp_LpStatus chain_solve chain_frame)
     = inr res).
Proof.
  exact (proj1 (proj2 (analysis_outcome pulp_LpStatus chain_solve sort_ties_kept
                         chain_frame sort_ties_kept_contract))).
Defined.

Lemma Qmax_is_argument x y : Qmax x y = x \/ Qmax x y = y.
Proof.
  unfold Qmax, GenericMinMax.gmax. destruct (x ?= y); auto.
Qed.

Lemma series_max_is_element x xs : In (series_max x xs) (x :: xs).
Proof.
  unfold series_max. revert x; induction xs as [|y xs IH]; intros x; simpl.
  - now left.
  - destruct (IH (Qmax x y)) as [H|H].
    + rewrite <- H. destruct (Qmax_is_argument x y) as [->| ->]; auto.
    + now right; right.
Qed.

(** X15. Whatever the table, in a returned analysis the floats are measured
    against the largest end time of the rows, not against the reported
    total: there is a row at that end time, it has float 0, and the float
    of every row is that end time minus its own and is not negative. *)
Theorem float_measured_against_largest_end
    LpStatus solve sort_values tasks_df df' printed an :
  sort_contract sort_values ->
  analyze_project_schedule LpStatus solve sort_values tasks_df
  = (df', printed, inr an) ->
  exists top,
    In top (an_schedule an) /\ float_time top == 0 /\
    forall r, In r (an_schedule an) ->
      float_time r = end_time (details top) - end_time (details r) /\
      end_time (details r) <= end_time (details top) /\
      0 <= float_time r.
Proof.
  intros Hsort Hrun.
  destruct (analyze_inr _ _ _ _ _ _ _ Hrun)
    as (res & d & ds & _ & _ & _ & Hsch).
  set (top_end := series_max (end_time d) (map end_time ds)) in *.
  destruct (Hsort (with_float top_end (d :: ds))) as [Hperm _].
  rewrite Hsch.
  assert (Htop : exists x, In x (d :: ds) /\ end_time x = top_end).
  { pose proof (series_max_is_element (end_time d) (map end_time ds)) as H.
    change (end_time d :: map end_time ds) with (map end_time (d :: ds)) in H.
    apply in_map_iff in H as (x & Hx & Hin). now exists x. }
  destruct Htop as (x & Hx & Hend).
  exists {| details := x; float_time := top_end - end_time x |}.
  split; [|split].
  - apply (Permutation_in _ Hperm). unfold with_float.
    apply in_map_iff. now exists x.
  - simpl. rewrite Hend. lra.
  - intros r Hr. apply (Permutation_in _ (Permutation_sym Hperm)) in Hr.
    unfold with_float in Hr. apply in_map_iff in Hr as (y & <- & Hy).
    simpl. rewrite Hend.
    assert (end_time y <= top_end).
    { apply series_max_ge.
      change (end_time d :: map end_time ds) with (map end_time (d :: ds)).
      now apply in_map. }
    repeat split; [assumption | lra].
Qed.

Lemma float_measured_against_largest_end_witness :
  exists top,
    In top (sort_ties_kept
              (with_float (series_max (12 # 6) [36 # 6; 42 # 6])
                 (map (detail_of (rows chain_frame)
                         (chain_solve (build_problem (rows chain_frame))))
                      (rows chain_frame)))) /\
    float_time top == 0 /\
    forall r,
      In r (sort_ties_kept
              (with_float (series_max (12 # 6) [36 # 6; 42 # 6])
                 (map (detail_of (rows chain_frame)
                         (chain_solve (build_problem (rows chain_frame))))
                      (rows chain_frame)))) ->
      float_time r = end_time (details top) - end_time (details r) /\
      end_time (details r) <= end_time (details top) /\
      0 <= float_time r.
Proof.
  exact (float_measured_against_largest_end pulp_LpStatus chain_solve
           sort_ties_kept chain_frame _ _ _ sort_ties_kept_contract eq_refl).
Defined.

(** ** The loader *)

Lemma has_column_in columns col : has_column columns col = true <-> In col columns.
Proof.
  unfold has_column. rewrite existsb_exists. split.
  - intros (x & Hx & E). apply String.eqb_eq in E. now subst.
  - intros H. exists col. split; [exact H | apply String.eqb_refl].
Qed.

Lemma no_missing_columns columns :
  filter (fun col => negb (has_column columns col)) required_columns = [] <->
  incl required_columns columns.
Proof.
  split.
  - intros H col Hcol. apply has_column_in.
    destruct (has_column columns col) eqn:E; [reflexivity|].
    assert (Hin : In col (filter (fun c => negb (has_column columns c))
                                 required_columns))
      by (apply filter_In; split; [exact Hcol | now rewrite E]).
    rewrite H in Hin. destruct Hin.
  - intros H.
    destruct (filter _ required_columns) as [|c l] eqn:E; [reflexivity|].
    assert (Hin : In c (filter (fun c => negb (has_column columns c))
                               required_columns))
      by (rewrite E; now left).
    apply filter_In in Hin as [Hc Hneg].
    apply H, has_column_in in Hc. now rewrite Hc in Hneg.
Qed.

(** X16. The loader returns a frame exactly when the file is read and the
    frame read has the five required columns; what it returns is that
    frame with its [taskID] column converted to strings. *)
Theorem load_succeeds_iff
    (Sheet : Type) (sheet_columns : Sheet -> list string)
    (taskID_astype_str : Sheet -> Sheet) (read_excel : string -> string + Sheet)
    (file_path : string) (loaded : Sheet) :
  load_excel_data Sheet sheet_columns taskID_astype_str read_excel file_path
  = inr loaded <->
  exists df, read_excel file_path = inr df /\
             incl required_columns (sheet_columns df) /\
             loaded = taskID_astype_str df.
Proof.
  unfold load_excel_data.
  destruct (read_excel file_path) as [msg|df].
  - split; [discriminate | intros (df & H & _); discriminate].
  - pose proof (no_missing_columns (sheet_columns df)) as Hmiss.
    destruct (filter _ required_columns) as [|c l].
    + split.
      * intros H. injection H as <-. exists df.
        split; [reflexivity|]. split; [now apply Hmiss | reflexivity].
      * intros (df0 & H & _ & ->). now injection H as ->.
    + split; [discriminate|].
      intros (df0 & H & Hincl & _). injection H as ->.
      apply Hmiss in Hincl. discriminate.
Qed.

(** X17. Every failure of the loader is an [Exception] whose message starts
    with ["Error loading Excel file: "]; it carries the message of the
    reader's exception, or, when the frame read lacks required columns, the
    names of exactly those columns, joined by [", "] in the order of the
    list of required columns. *)
Theorem load_failure_message
    (Sheet : Type) (sheet_columns : Sheet -> list string)
    (taskID_astype_str : Sheet -> Sheet) (read_excel : string -> string + Sheet)
    (file_path : string) (e : load_exception) :
  load_excel_data Sheet sheet_columns taskID_astype_str read_excel file_path
  = inl e ->
  exists detail,
    e = Exception ("Error loading Excel file: " ++ detail)%string /\
    (read_excel file_path = inl detail \/
     exists df missing,
       read_excel file_path = inr df /\
       detail = ("Missing required columns: "
                 ++ String.concat ", " missing)%string /\
       missing <> [] /\
       missing = filter (fun col => negb (has_column (sheet_columns df) col))
                        required_columns /\
       forall col, In col missing <->
                   In col required_columns /\ ~ In col (sheet_columns df)).
Proof.
  unfold load_excel_data.
  destruct (read_excel file_path) as [msg|df].
  - intros H. injection H as <-. exists msg. split; [reflexivity | now left].
  - destruct (filter _ required_columns) as [|c l] eqn:E; [discriminate|].
    intros H. injection H as <-. eexists. split; [reflexivity|].
    right. exists df, (c :: l). split; [reflexivity|].
    split; [reflexivity|]. split; [discriminate|]. split; [now rewrite E|].
    intros col. rewrite <- E, filter_In. split.
    + intros [Hc Hneg]. split; [exact Hc|].
      intros Hin. apply has_column_in in Hin. now rewrite Hin in Hneg.
    + intros [Hc Hnot]. split; [exact Hc|].
      destruct (has_column (sheet_columns df) col) eqn:Hh; [|reflexivity].
      apply has_column_in in Hh. now destruct Hnot.
Qed.

Lemma load_succeeds_iff_witness :
  exists df,
    one_file_reader "project-plan-v003.xlsx"
      ["taskID"; "owner"; "predecessorTaskIDs"; "bestCaseHours";
       "expectedHours"; "worstCaseHours"] "project-plan-v003.xlsx" = inr df /\
    incl required_columns df /\
    ["taskID"; "owner"; "predecessorTaskIDs"; "bestCaseHours";
     "expectedHours"; "worstCaseHours"] = df.
Proof.
  exact (proj1 (load_succeeds_iff (list string) (fun df => df) (fun df => df)
                  (one_file_reader "project-plan-v003.xlsx"
                     ["taskID"; "owner"; "predecessorTaskIDs"; "bestCaseHours";
                      "expectedHours"; "worstCaseHours"])
                  "project-plan-v003.xlsx" _) eq_refl).
Defined.

Lemma load_failure_message_witness :
  exists detail,
    Exception "Error loading Excel file: Missing required columns: predecessorTaskIDs, worstCaseHours"
    = Exception ("Error loading Excel file: " ++ detail)%string /\
    (one_file_reader "project-plan-v003.xlsx"
       ["taskID"; "bestCaseHours"; "expectedHours"] "project-plan-v003.xlsx"
     = inl detail \/
     exists df missing,
       one_file_reader "project-plan-v003.xlsx"
         ["taskID"; "bestCaseHours"; "expectedHours"] "project-plan-v003.xlsx"
       = inr df /\
       detail = ("Missing required columns: "
                 ++ String.concat ", " missing)%string /\
       missing <> [] /\
       missing = filter (fun col => negb (has_column df col)) required_columns /\
       forall col, In col missing <->
                   In col required_columns /\ ~ In col df).
Proof.
  exact (load_failure_message (list string) (fun df => df) (fun df => df)
           (one_file_reader "project-plan-v003.xlsx"
              ["taskID"; "bestCaseHours"; "expectedHours"])
           "project-plan-v003.xlsx" _ eq_refl).
Defined.
